(** * lander.py: the physics and particle kernel, embedded in Rocq

    The program is a Python 2 script.  Its numbers are Python floats and a
    few ints; here they are real numbers ([R]): the kernel is specified
    over real arithmetic, ints embed in the reals, and the two places where
    Python 2 could divide one int by another (2500000 / 5000 and 0 / 5000,
    when the whole initial int fuel load is burnt in one step) are exact.
    What can raise in the source is kept partial: float division by zero
    ([ZeroDivisionError]) and [math.sqrt] of a negative number
    ([ValueError]) yield [None].  Rounding and the limits of the machine
    (float overflow, the C long that [xrange] wants) are not part of the
    real-number model; the throttle and burn arithmetic is also given on
    binary64 floats, and the scenarios are evaluated there at the end.

    The pygame side (window, clock, blitting) is outside the kernel; of the
    sprite only the two image references that [Ship.update] assigns are
    kept, as symbolic values. *)

From Stdlib Require Import Floats.
From Stdlib Require Import Reals Lra Lia ZArith List Sorted.
Import ListNotations.

Set Warnings "-inexact-float".

Open Scope R_scope.

(** ** Python primitives used by the script *)

(** Exceptions abort the run: computations live in [option]. *)
Definition bind {A B : Type} (m : option A) (k : A -> option B) : option B :=
  match m with
  | Some a => k a
  | None => None
  end.

Notation "x <- m ;; k" := (bind m (fun x => k))
  (at level 61, m at next level, right associativity).
Notation "' p <- m ;; k" := (bind m (fun x => let p := x in k))
  (at level 61, p pattern, m at next level, right associativity).

(** [a / b] on floats: raises on a zero divisor. *)
Definition py_div (a b : R) : option R :=
  if Req_dec_T b 0 then None else Some (a / b).

(** [math.sqrt]: raises on a negative argument. *)
Definition py_sqrt (x : R) : option R :=
  if Rlt_dec x 0 then None else Some (sqrt x).

(** [int(x)] on a float truncates toward zero. *)
Definition py_int (x : R) : Z :=
  if Rle_dec 0 x then Int_part x else (- Int_part (- x))%Z.

(** [math.atan2(y, x)]: the angle of the point (x, y) in (-pi, pi], with
    [atan2(0, 0) = 0]. *)
Definition atan2 (y x : R) : R :=
  if Rlt_dec 0 x then atan (y / x)
  else if Rlt_dec x 0 then
    (if Rle_dec 0 y then atan (y / x) + PI else atan (y / x) - PI)
  else if Rlt_dec 0 y then PI / 2
  else if Rlt_dec y 0 then - (PI / 2)
  else 0.

(** [pygame.Color(r, g, b, a)]: raises on a channel outside 0..255. *)
Definition pygame_Color (r g b a : Z) : option (Z * Z * Z * Z) :=
  if (Z.leb 0 r && Z.leb r 255 && Z.leb 0 g && Z.leb g 255
      && Z.leb 0 b && Z.leb b 255 && Z.leb 0 a && Z.leb a 255)%bool
  then Some (r, g, b, a) else None.

(** ** Constants (lines 8-30) *)

Definition HALF_PI : R := PI / 2.0.
Definition DEGREES_PER_RADIAN : R := 180.0 / PI.

Definition EMPTY_MASS : R := 5000.
Definition EXHAUST_VELOCITY : R := 500.
Definition G : R := 10.0.
Definition THROTTLE_MAX : R := 600.
Definition TURN_RATE : R := 0.2.

Definition MAX_X : R := 1024.
Definition MAX_Y : R := 768.

Definition SPARKS_PER_KG : R := 0.5.
Definition SPARK_LIFETIME : R := 1.
Definition SPARK_DIRECTION_VARIABILITY : R := 0.1.
Definition SPARK_VELOCITY_VARIABILITY : R := 20.

Definition SPARK_START_RGBA : R * R * R * R := (255, 255, 255, 255).
Definition SPARK_END_RGBA : R * R * R * R := (80, 40, 20, 20).
Definition SPARK_START_RADIUS : R := 1.
Definition SPARK_END_RADIUS : R := 8.

(** ** scale (lines 35-37) *)

Definition scale (start end_ s : R) : Z :=
  let result := py_int (s * (end_ - start) + start) in
  result.

(** ** class Vector (lines 106-121) *)

Module Vector.

Record t : Type := mk { direction : R; magnitude : R }.

Definition horizontal_component (self : t) : R :=
  magnitude self * cos (direction self).

Definition vertical_component (self : t) : R :=
  magnitude self * sin (direction self).

(** [__add__] *)
Definition add (self other : t) : option t :=
  let x := horizontal_component self + horizontal_component other in
  let y := vertical_component self + vertical_component other in
  m <- py_sqrt (x * x + y * y) ;;
  Some (mk (atan2 y x) m).

End Vector.

(** ** module random: the hidden generator

    The generator is the stream of values [random.random()] will return;
    a draw takes the head.  [random.uniform(a, b)] is
    [a + (b - a) * random()]. *)

Module Random.

Definition state : Type := nat -> R.

Definition random (st : state) : R * state :=
  (st O, fun n => st (S n)).

Definition uniform (a b : R) (st : state) : R * state :=
  let '(u, st) := random st in
  (a + (b - a) * u, st).

End Random.

(** ** class Spark (lines 42-89) *)

Module Spark.

Record t : Type := mk {
  position : R * R;
  velocity : Vector.t;
  start_time : R;
  age : R
}.

Definition set_age (self : t) (a : R) : t :=
  mk (position self) (velocity self) (start_time self) a.

(** What the methods reach outside the instance: the class attribute
    [sparks], newest spark first, and the generator of module random. *)
Record globals : Type := mkGlobals {
  sparks : list t;
  rng : Random.state
}.

(** [__init__]: two draws, then [sparks.insert(0, self)]. *)
Definition init (position : R * R) (direction start_time : R)
    (g : globals) : globals :=
  let '(d, st) := Random.uniform (- SPARK_DIRECTION_VARIABILITY)
                                 SPARK_DIRECTION_VARIABILITY (rng g) in
  let direction := direction + d in
  let '(v, st) := Random.uniform (- SPARK_VELOCITY_VARIABILITY)
                                 SPARK_VELOCITY_VARIABILITY st in
  let velocity := EXHAUST_VELOCITY + v in
  let self := mk position (Vector.mk direction velocity) start_time 0 in
  mkGlobals (self :: sparks g) st.

Definition update (self : t) (delta_t : R) : option t :=
  let '(x, y) := position self in
  let x := x + Vector.horizontal_component (velocity self) * delta_t in
  let y := y + Vector.vertical_component (velocity self) * delta_t in
  v <- Vector.add (velocity self) (Vector.mk (- HALF_PI) (G * delta_t)) ;;
  Some (mk (x, y) v (start_time self) (age self)).

(** The loop of [update_all] over the list from index i on: the result is
    what the list holds from index i on when the loop ends. *)
Fixpoint update_all_loop (delta_t now : R) (l : list t) : option (list t) :=
  match l with
  | [] => Some []
  | spark :: rest =>
      a <- py_div (now - start_time spark) SPARK_LIFETIME ;;
      let spark := set_age spark a in
      if Rgt_dec (age spark) 1 then Some []
      else
        spark <- update spark delta_t ;;
        rest <- update_all_loop delta_t now rest ;;
        Some (spark :: rest)
  end.

Definition update_all (delta_t now : R) (g : globals) : option globals :=
  l <- update_all_loop delta_t now (sparks g) ;;
  Some (mkGlobals l (rng g)).

(** What [pygame.draw.circle] is asked to draw. *)
Record circle : Type := mkCircle {
  color : Z * Z * Z * Z;
  center : R * R;
  radius : Z
}.

(** [draw]: the circle handed to [pygame.draw.circle]; [map] applies
    [scale] to the four channels in turn. *)
Definition draw (self : t) : option circle :=
  let radius := scale SPARK_START_RADIUS SPARK_END_RADIUS (age self) in
  let '(r0, g0, b0, a0) := SPARK_START_RGBA in
  let '(r1, g1, b1, a1) := SPARK_END_RGBA in
  let r := scale r0 r1 (age self) in
  let g := scale g0 g1 (age self) in
  let b := scale b0 b1 (age self) in
  let a := scale a0 a1 (age self) in
  let x := py_int (fst (position self)) in
  let y := py_int (snd (position self)) in
  color <- pygame_Color r g b a ;;
  Some (mkCircle color (IZR x, MAX_Y - IZR y) radius).

(** [draw_all]: the circles in list order; the first failure aborts. *)
Fixpoint draw_all (l : list t) : option (list circle) :=
  match l with
  | [] => Some []
  | spark :: rest =>
      c <- draw spark ;;
      cs <- draw_all rest ;;
      Some (c :: cs)
  end.

(** The list is in age order: every spark started no earlier than the ones
    after it. *)
Definition newest_first (l : list t) : Prop :=
  StronglySorted (fun a b => start_time b <= start_time a) l.

End Spark.

(** ** class Ship (lines 130-203) *)

Module Ship.

(** pygame surfaces, as far as [update] tells them apart. *)
Inductive image : Type :=
| base_image
| rotate (img : image) (degrees : R).

Record t : Type := mk {
  position : R * R;
  velocity : Vector.t;
  orientation : R;
  throttle : R;
  rotation : Z;
  fuel : R;
  image_ : image;
  sprite_image : image
}.

Definition set_position (s : t) (p : R * R) : t :=
  mk p (velocity s) (orientation s) (throttle s) (rotation s) (fuel s)
     (image_ s) (sprite_image s).
Definition set_velocity (s : t) (v : Vector.t) : t :=
  mk (position s) v (orientation s) (throttle s) (rotation s) (fuel s)
     (image_ s) (sprite_image s).
Definition set_orientation (s : t) (o : R) : t :=
  mk (position s) (velocity s) o (throttle s) (rotation s) (fuel s)
     (image_ s) (sprite_image s).
Definition set_throttle (s : t) (th : R) : t :=
  mk (position s) (velocity s) (orientation s) th (rotation s) (fuel s)
     (image_ s) (sprite_image s).
Definition set_rotation_field (s : t) (r : Z) : t :=
  mk (position s) (velocity s) (orientation s) (throttle s) r (fuel s)
     (image_ s) (sprite_image s).
Definition set_fuel (s : t) (f : R) : t :=
  mk (position s) (velocity s) (orientation s) (throttle s) (rotation s) f
     (image_ s) (sprite_image s).
Definition set_image (s : t) (i : image) : t :=
  mk (position s) (velocity s) (orientation s) (throttle s) (rotation s)
     (fuel s) i (sprite_image s).
Definition set_sprite_image (s : t) (i : image) : t :=
  mk (position s) (velocity s) (orientation s) (throttle s) (rotation s)
     (fuel s) (image_ s) i.

(** [draw]: the sprite's image, centred on [sprite.position]. *)
Definition draw (self : t) : image * (R * R) :=
  let sprite_position := (fst (position self), MAX_Y - snd (position self)) in
  (sprite_image self, sprite_position).

(** [__init__] *)
Definition init : t :=
  mk (0, MAX_Y) (Vector.mk 0 20) 0 0 0%Z 5000 base_image base_image.

Definition mass (self : t) : R := fuel self + EMPTY_MASS.

(** [for i in xrange(n): Spark(position, direction, now)] *)
Fixpoint spawn (n : nat) (position : R * R) (direction now : R)
    (g : Spark.globals) : Spark.globals :=
  match n with
  | O => g
  | S n => spawn n position direction now
             (Spark.init position direction now g)
  end.

(** Lines 165-177: the thrust branch. *)
Definition thrust (delta_t now : R) (self : t) (g : Spark.globals)
    : option (t * Spark.globals) :=
  if Rgt_dec (throttle self) 0 then
    let fuel_burned := throttle self * THROTTLE_MAX * delta_t in
    let '(fuel_burned, self) :=
      if Rgt_dec fuel_burned (fuel self)
      then (fuel self, set_throttle (set_fuel self 0) 0)
      else (fuel_burned, set_fuel self (fuel self - fuel_burned)) in
    let momentum := fuel_burned * EXHAUST_VELOCITY in
    dv <- py_div momentum (mass self) ;;
    v <- Vector.add (velocity self)
                    (Vector.mk (orientation self + HALF_PI) dv) ;;
    let self := set_velocity self v in
    Some (self,
          spawn (Z.to_nat (py_int (fuel_burned * SPARKS_PER_KG)))
                (position self) (orientation self - HALF_PI) now g)
  else Some (self, g).

(** Lines 180-188: the rotation branch. *)
Definition turn (delta_t : R) (self : t) : t :=
  if Z.eq_dec (rotation self) 0 then self
  else
    let self := set_orientation self
                  (orientation self + IZR (rotation self) * TURN_RATE * delta_t) in
    if Req_dec_T (orientation self) 0 then set_image self base_image
    else
      let img := rotate base_image (orientation self * DEGREES_PER_RADIAN) in
      set_sprite_image (set_image self img) img.

Definition update (delta_t now : R) (self : t) (g : Spark.globals)
    : option (t * Spark.globals) :=
  let '(x, y) := position self in
  let x := x + Vector.horizontal_component (velocity self) * delta_t in
  let y := y + Vector.vertical_component (velocity self) * delta_t in
  let self := set_position self (x, y) in
  v <- Vector.add (velocity self) (Vector.mk (- HALF_PI) (G * delta_t)) ;;
  let self := set_velocity self v in
  '(self, g) <- thrust delta_t now self g ;;
  Some (turn delta_t self, g).

Definition increase_throttle (self : t) : t :=
  if Req_dec_T (fuel self) 0 then self
  else
    let self := set_throttle self (throttle self + 0.1) in
    if Rgt_dec (throttle self) 1.0 then set_throttle self 1.0 else self.

Definition decrease_throttle (self : t) : t :=
  let self := set_throttle self (throttle self - 0.1) in
  if Rlt_dec (throttle self) 0.0 then set_throttle self 0 else self.

Definition set_rotation (rotation : Z) (self : t) : t :=
  set_rotation_field self rotation.

End Ship.

(** ** main (lines 206-270) *)

Module Main.

Record state : Type := mkState {
  ship : Ship.t;
  globals : Spark.globals
}.

(** The calls the loop makes on the ship and on the sparks. *)
Inductive call : Type :=
| ShipUpdate (delta_t now : R)
| SparkUpdateAll (delta_t now : R)
| IncreaseThrottle
| DecreaseThrottle
| SetRotation (rotation : Z).

Definition step (c : call) (st : state) : option state :=
  match c with
  | ShipUpdate delta_t now =>
      '(s, g) <- Ship.update delta_t now (ship st) (globals st) ;;
      Some (mkState s g)
  | SparkUpdateAll delta_t now =>
      g <- Spark.update_all delta_t now (globals st) ;;
      Some (mkState (ship st) g)
  | IncreaseThrottle =>
      Some (mkState (Ship.increase_throttle (ship st)) (globals st))
  | DecreaseThrottle =>
      Some (mkState (Ship.decrease_throttle (ship st)) (globals st))
  | SetRotation r =>
      Some (mkState (Ship.set_rotation r (ship st)) (globals st))
  end.

Fixpoint run (cs : list call) (st : state) : option state :=
  match cs with
  | [] => Some st
  | c :: cs => st <- step c st ;; run cs st
  end.

(** What one trip round the loop reads from pygame and the clock. *)
Inductive button : Type :=
| MouseWheelUp       (* event.button == 4 *)
| MouseWheelDown     (* event.button == 5 *)
| OtherButton.

Record frame : Type := mkFrame {
  delta_t : R;             (* clock.tick(30) / 1000.0 *)
  now_ship : R;            (* first time.time() *)
  now_sparks : R;          (* second time.time() *)
  buttons : list button;   (* the MOUSEBUTTONDOWN events *)
  key_z : bool;
  key_x : bool
}.

Definition button_calls (b : button) : list call :=
  match b with
  | MouseWheelDown => [DecreaseThrottle]
  | MouseWheelUp => [IncreaseThrottle]
  | OtherButton => []
  end.

Definition frame_calls (f : frame) : list call :=
  let rotation := 0%Z in
  let rotation := if key_z f then (rotation + 1)%Z else rotation in
  let rotation := if key_x f then (rotation - 1)%Z else rotation in
  ShipUpdate (delta_t f) (now_ship f)
  :: SparkUpdateAll (delta_t f) (now_sparks f)
  :: flat_map button_calls (buttons f)
  ++ [SetRotation rotation].

(** The state when the loop is entered: a new ship, no spark. *)
Definition start (seed : Random.state) : state :=
  mkState Ship.init (Spark.mkGlobals [] seed).

Definition main_loop (fs : list frame) (seed : Random.state) : option state :=
  run (flat_map frame_calls fs) (start seed).

(** Lines 264-266: what a frame draws, the ship first. *)
Definition render (st : state) : option ((Ship.image * (R * R)) * list Spark.circle) :=
  let blit := Ship.draw (ship st) in
  circles <- Spark.draw_all (Spark.sparks (globals st)) ;;
  Some (blit, circles).

End Main.

(** ** Quantities the statements below name *)

(** The Cartesian sum that [Vector.add] turns back into polar form. *)
Definition cartesian_sum (a b : Vector.t) : R * R :=
  (Vector.horizontal_component a + Vector.horizontal_component b,
   Vector.vertical_component a + Vector.vertical_component b).

(** The length [Vector.add] gives the sum. *)
Definition hypot (x y : R) : R := sqrt (x * x + y * y).

(** The age [update_all] assigns to a spark at time [now]. *)
Definition age_at (now : R) (sp : Spark.t) : R :=
  (now - Spark.start_time sp) / SPARK_LIFETIME.

(** One iteration of the loop of [update_all] on a spark that stays. *)
Definition advance (delta_t now : R) (sp : Spark.t) : option Spark.t :=
  Spark.update (Spark.set_age sp (age_at now sp)) delta_t.

(** How many sparks the scan of [update_all] passes before it meets one
    whose age exceeds 1: the index at which the list is cut. *)
Fixpoint live_prefix (now : R) (l : list Spark.t) : nat :=
  match l with
  | [] => O
  | sp :: l => if Rgt_dec (age_at now sp) 1 then O else S (live_prefix now l)
  end.

(** The value of [fuel_burned] when line 173 reads it. *)
Definition fuel_burned (delta_t : R) (s : Ship.t) : R :=
  let fb := Ship.throttle s * THROTTLE_MAX * delta_t in
  if Rgt_dec fb (Ship.fuel s) then Ship.fuel s else fb.

(** Where [Ship.update] moves the ship (lines 156-159). *)
Definition moved (delta_t : R) (s : Ship.t) : R * R :=
  (fst (Ship.position s) + Vector.horizontal_component (Ship.velocity s) * delta_t,
   snd (Ship.position s) + Vector.vertical_component (Ship.velocity s) * delta_t).

(** The gravity term both [update] methods add to a velocity. *)
Definition gravity (delta_t : R) : Vector.t :=
  Vector.mk (- HALF_PI) (G * delta_t).

(** Successive creations and culls on the spark list. *)
Inductive spark_op : Type :=
| Create (position : R * R) (direction start_time : R)
| Cull (delta_t now : R).

Definition spark_step (o : spark_op) (g : Spark.globals) : option Spark.globals :=
  match o with
  | Create p d t => Some (Spark.init p d t g)
  | Cull dt now => Spark.update_all dt now g
  end.

Fixpoint spark_run (os : list spark_op) (g : Spark.globals) : option Spark.globals :=
  match os with
  | [] => Some g
  | o :: os => g <- spark_step o g ;; spark_run os g
  end.

(** The timestamps the creations of a run receive, in order. *)
Fixpoint stamps (os : list spark_op) : list R :=
  match os with
  | [] => []
  | Create _ _ t :: os => t :: stamps os
  | Cull _ _ :: os => stamps os
  end.

(** How many sparks a run creates, and the times of its culls. *)
Fixpoint creations (os : list spark_op) : nat :=
  match os with
  | [] => O
  | Create _ _ _ :: os => S (creations os)
  | Cull _ _ :: os => creations os
  end.

Fixpoint cull_times (os : list spark_op) : list R :=
  match os with
  | [] => []
  | Create _ _ _ :: os => cull_times os
  | Cull _ now :: os => now :: cull_times os
  end.

(** No spark of [l] started after [t]. *)
Definition started_by (t : R) (l : list Spark.t) : Prop :=
  Forall (fun sp => Spark.start_time sp <= t) l.

(** [ts] never goes down, and starts no lower than [t]. *)
Fixpoint nondecreasing_from (t : R) (ts : list R) : Prop :=
  match ts with
  | [] => True
  | u :: ts => t <= u /\ nondecreasing_from u ts
  end.

(** A spark updated [n] times with the same time step. *)
Fixpoint fall (n : nat) (delta_t : R) (sp : Spark.t) : option Spark.t :=
  match n with
  | O => Some sp
  | S n => sp <- Spark.update sp delta_t ;; fall n delta_t sp
  end.

(** The image that belongs to an orientation (lines 182-186). *)
Definition image_of (orientation : R) : Ship.image :=
  if Req_dec_T orientation 0 then Ship.base_image
  else Ship.rotate Ship.base_image (orientation * DEGREES_PER_RADIAN).

(** Every value the generator will return is in the unit interval. *)
Definition unit_draws (st : Random.state) : Prop :=
  forall n, 0 <= st n <= 1.

(** A clock good enough for the loop: the time [Ship.update] is given
    never goes back from one frame to the next (nor below [t]), and within
    a frame [Spark.update_all] is given a time no earlier. *)
Fixpoint steady_clock (t : R) (fs : list Main.frame) : Prop :=
  match fs with
  | [] => True
  | f :: fs =>
      t <= Main.now_ship f /\ Main.now_ship f <= Main.now_sparks f
      /\ steady_clock (Main.now_ship f) fs
  end.

(** The calls of the input handling: neither update. *)
Definition input_call (c : Main.call) : Prop :=
  match c with
  | Main.ShipUpdate _ _ | Main.SparkUpdateAll _ _ => False
  | _ => True
  end.

(** Sample states: the new ship at full throttle; the same with 600 kg of
    fuel left; two sparks started at times 1 and 0; a short run. *)
Definition ship_full_throttle : Ship.t := Ship.set_throttle Ship.init 1.0.

Definition ship_last_drop : Ship.t := Ship.set_fuel ship_full_throttle 600.

Definition two_sparks : Spark.globals :=
  Spark.mkGlobals
    [Spark.mk (0, 0) (Vector.mk 0 1) 1 0; Spark.mk (0, 0) (Vector.mk 0 1) 0 0]
    (fun _ => 0).

Definition short_run : list spark_op :=
  [Create (0, 0) 0 2; Cull 1 (5 / 2)].

(** The timestamps a trace hands to [Ship.update]. *)
Fixpoint update_stamps (cs : list Main.call) : list R :=
  match cs with
  | [] => []
  | Main.ShipUpdate _ now :: cs => now :: update_stamps cs
  | _ :: cs => update_stamps cs
  end.

(** Every update call of the trace has a time step of at least zero. *)
Definition forward (c : Main.call) : Prop :=
  match c with
  | Main.ShipUpdate dt _ => 0 <= dt
  | _ => True
  end.
(** ** The throttle and burn arithmetic in binary64

    The same lines on IEEE doubles, the numbers Python computes with, for
    the concrete inputs of the scenarios.  [if self.fuel:] is a test against
    zero. *)

Module Binary64.

Definition increase_throttle (fuel throttle : float) : float :=
  if (fuel =? 0)%float then throttle
  else
    let throttle := (throttle + 0.1)%float in
    if (1.0 <? throttle)%float then 1.0%float else throttle.

Definition decrease_throttle (throttle : float) : float :=
  let throttle := (throttle - 0.1)%float in
  if (throttle <? 0.0)%float then 0%float else throttle.

(** Lines 165-172: [fuel_burned] (0 when the branch is skipped), and the
    fuel and the throttle after it. *)
Definition burn (delta_t throttle fuel : float) : float * float * float :=
  if (0 <? throttle)%float then
    let fuel_burned := (throttle * 600 * delta_t)%float in
    if (fuel <? fuel_burned)%float then (fuel, 0%float, 0%float)
    else (fuel_burned, (fuel - fuel_burned)%float, throttle)
  else (0%float, fuel, throttle).

End Binary64.

(** * Properties *)

(** ** Primitives *)

Lemma py_div_nonzero (a b : R) : b <> 0 -> py_div a b = Some (a / b).
Proof.
  intros Hb. unfold py_div. destruct (Req_dec_T b 0); [contradiction | reflexivity].
Qed.

Lemma py_sqrt_nonneg (x : R) : 0 <= x -> py_sqrt x = Some (sqrt x).
Proof.
  intros Hx. unfold py_sqrt. destruct (Rlt_dec x 0); [lra | reflexivity].
Qed.

Lemma sum_squares_nonneg (x y : R) : 0 <= x * x + y * y.
Proof. nra. Qed.

Lemma py_int_IZR (z : Z) : py_int (IZR z) = z.
Proof.
  unfold py_int. destruct (Rle_dec 0 (IZR z)) as [H | H].
  - symmetry. apply Int_part_spec. lra.
  - rewrite <- opp_IZR. rewrite <- (Int_part_spec (IZR (- z)) (- z)); [lia | lra].
Qed.

(** ** Polar form and back *)

Section Polar.

Variables x y : R.

Lemma hypot_scaled : x <> 0 -> hypot x y = Rabs x * sqrt (1 + (y / x)²).
Proof.
  intros Hx. unfold hypot.
  replace (x * x + y * y) with (x² * (1 + (y / x)²))
    by (unfold Rsqr; field; assumption).
  rewrite sqrt_mult_alt by apply Rle_0_sqr.
  now rewrite sqrt_Rsqr_abs.
Qed.

Lemma root_one_plus_square_pos (t : R) : 0 < sqrt (1 + t²).
Proof. apply sqrt_lt_R0. pose proof (Rle_0_sqr t). lra. Qed.

Lemma polar_horizontal : hypot x y * cos (atan2 y x) = x.
Proof.
  pose proof (root_one_plus_square_pos (y / x)) as Hs.
  unfold atan2.
  destruct (Rlt_dec 0 x) as [Hpos | Hnpos].
  - rewrite hypot_scaled by lra. rewrite Rabs_pos_eq by lra.
    rewrite cos_atan. field. lra.
  - destruct (Rlt_dec x 0) as [Hneg | Hnneg].
    + rewrite hypot_scaled by lra. rewrite Rabs_left by lra.
      destruct (Rle_dec 0 y).
      * rewrite neg_cos, cos_atan. field. lra.
      * replace (atan (y / x) - PI) with (- (PI - atan (y / x))) by ring.
        rewrite cos_neg, Rtrigo_facts.cos_pi_minus, cos_atan. field. lra.
    + assert (x = 0) as -> by lra.
      destruct (Rlt_dec 0 y); [rewrite cos_PI2; ring |].
      destruct (Rlt_dec y 0); [rewrite cos_neg, cos_PI2; ring |].
      assert (y = 0) as Hy by lra. unfold hypot. rewrite Hy.
      replace (0 * 0 + 0 * 0) with 0 by ring. rewrite sqrt_0. ring.
Qed.

Lemma polar_vertical : hypot x y * sin (atan2 y x) = y.
Proof.
  pose proof (root_one_plus_square_pos (y / x)) as Hs.
  unfold atan2.
  destruct (Rlt_dec 0 x) as [Hpos | Hnpos].
  - rewrite hypot_scaled by lra. rewrite Rabs_pos_eq by lra.
    rewrite sin_atan. field. lra.
  - destruct (Rlt_dec x 0) as [Hneg | Hnneg].
    + rewrite hypot_scaled by lra. rewrite Rabs_left by lra.
      destruct (Rle_dec 0 y).
      * rewrite neg_sin, sin_atan. field. lra.
      * replace (atan (y / x) - PI) with (- (PI - atan (y / x))) by ring.
        rewrite sin_neg, Rtrigo_facts.sin_pi_minus, sin_atan. field. lra.
    + assert (x = 0) as Hx by lra. unfold hypot. rewrite Hx.
      replace (0 * 0 + y * y) with (y * y) by ring.
      destruct (Rlt_dec 0 y).
      { rewrite sin_PI2, sqrt_square by lra. ring. }
      destruct (Rlt_dec y 0).
      { replace (y * y) with ((- y) * (- y)) by ring.
        rewrite sin_neg, sin_PI2, sqrt_square by lra. ring. }
      assert (y = 0) as -> by lra. rewrite sin_0. ring.
Qed.

End Polar.


(** ** Vector *)

Lemma Vector_add_eq (a b : Vector.t) :
  Vector.add a b =
  Some (Vector.mk (atan2 (snd (cartesian_sum a b)) (fst (cartesian_sum a b)))
                  (hypot (fst (cartesian_sum a b)) (snd (cartesian_sum a b)))).
Proof.
  unfold Vector.add, cartesian_sum, hypot. cbn [fst snd].
  rewrite py_sqrt_nonneg by apply sum_squares_nonneg. reflexivity.
Qed.

Lemma Vector_add_components (a b ab : Vector.t) :
  Vector.add a b = Some ab ->
  Vector.horizontal_component ab
    = Vector.horizontal_component a + Vector.horizontal_component b
  /\ Vector.vertical_component ab
    = Vector.vertical_component a + Vector.vertical_component b.
Proof.
  rewrite Vector_add_eq. intros [= <-].
  unfold Vector.horizontal_component at 1, Vector.vertical_component at 1.
  cbn [Vector.direction Vector.magnitude cartesian_sum fst snd].
  split; [apply polar_horizontal | apply polar_vertical].
Qed.

Lemma Vector_add_total (a b : Vector.t) : exists ab, Vector.add a b = Some ab.
Proof. rewrite Vector_add_eq. eauto. Qed.

Lemma cartesian_sum_comm (a b : Vector.t) : cartesian_sum a b = cartesian_sum b a.
Proof. unfold cartesian_sum. f_equal; ring. Qed.

Lemma Vector_add_comm (a b : Vector.t) : Vector.add a b = Vector.add b a.
Proof. now rewrite !Vector_add_eq, cartesian_sum_comm. Qed.

Lemma cartesian_sum_assoc (a b c ab bc : Vector.t) :
  Vector.add a b = Some ab -> Vector.add b c = Some bc ->
  cartesian_sum ab c = cartesian_sum a bc.
Proof.
  intros Hab Hbc.
  destruct (Vector_add_components _ _ _ Hab) as [Hx Hy].
  destruct (Vector_add_components _ _ _ Hbc) as [Hx' Hy'].
  unfold cartesian_sum. rewrite Hx, Hy, Hx', Hy'. f_equal; ring.
Qed.

Lemma Vector_double (m : R) :
  0 <= m -> Vector.add (Vector.mk 0 m) (Vector.mk 0 m) = Some (Vector.mk 0 (2 * m)).
Proof.
  intros Hm. rewrite Vector_add_eq.
  unfold cartesian_sum, Vector.horizontal_component, Vector.vertical_component.
  cbn [Vector.direction Vector.magnitude fst snd]. rewrite cos_0, sin_0.
  replace (m * 1 + m * 1) with (2 * m) by ring.
  replace (m * 0 + m * 0) with 0 by ring.
  do 2 f_equal.
  - unfold atan2.
    destruct (Rlt_dec 0 (2 * m)).
    + replace (0 / (2 * m)) with 0 by (field; lra). apply atan_0.
    + destruct (Rlt_dec (2 * m) 0); [lra |].
      destruct (Rlt_dec 0 0); [lra | reflexivity].
  - unfold hypot. replace (2 * m * (2 * m) + 0 * 0) with ((2 * m) * (2 * m)) by ring.
    apply sqrt_square. lra.
Qed.

(** C5. Vector addition commutes and is associative on the Cartesian
    components (the two sums exist and have the same horizontal and the same
    vertical component, which are the sums of the operands' components), and
    for m >= 0 the vector (direction 0, magnitude m) added to itself is
    (direction 0, magnitude 2m). *)
Theorem Vector_add_laws (a b c : Vector.t) (m : R) (Hm : 0 <= m) :
  (exists ab ba,
      Vector.add a b = Some ab /\ Vector.add b a = Some ba
      /\ Vector.horizontal_component ab = Vector.horizontal_component ba
      /\ Vector.vertical_component ab = Vector.vertical_component ba
      /\ Vector.horizontal_component ab
         = Vector.horizontal_component a + Vector.horizontal_component b
      /\ Vector.vertical_component ab
         = Vector.vertical_component a + Vector.vertical_component b)
  /\ (exists ab bc l r,
      Vector.add a b = Some ab /\ Vector.add ab c = Some l
      /\ Vector.add b c = Some bc /\ Vector.add a bc = Some r
      /\ Vector.horizontal_component l = Vector.horizontal_component r
      /\ Vector.vertical_component l = Vector.vertical_component r)
  /\ Vector.add (Vector.mk 0 m) (Vector.mk 0 m) = Some (Vector.mk 0 (2 * m)).
Proof.
  split; [| split].
  - destruct (Vector_add_total a b) as [ab Hab].
    exists ab, ab. rewrite <- (Vector_add_comm a b).
    destruct (Vector_add_components _ _ _ Hab) as [Hx Hy]. tauto.
  - destruct (Vector_add_total a b) as [ab Hab].
    destruct (Vector_add_total b c) as [bc Hbc].
    destruct (Vector_add_total ab c) as [l Hl].
    exists ab, bc, l, l. repeat split; try assumption.
    rewrite <- Hl, !Vector_add_eq.
    now rewrite (cartesian_sum_assoc a b c ab bc Hab Hbc).
  - now apply Vector_double.
Qed.

Lemma Vector_add_laws_witness :
  0 <= 3
  /\ Vector.add (Vector.mk 0 3) (Vector.mk 0 3) = Some (Vector.mk 0 (2 * 3)).
Proof.
  assert (H : 0 <= 3) by lra.
  split; [exact H |].
  exact (proj2 (proj2 (Vector_add_laws (Vector.mk 0 1) (Vector.mk (PI / 2) 2)
                                        (Vector.mk PI 1) 3 H))).
Defined.

(** ** Spark: one call of update_all *)

Lemma age_at_computed (now : R) (sp : Spark.t) :
  py_div (now - Spark.start_time sp) SPARK_LIFETIME = Some (age_at now sp).
Proof. apply py_div_nonzero. unfold SPARK_LIFETIME. lra. Qed.

Lemma age_at_mono (now : R) (a b : Spark.t) :
  Spark.start_time b <= Spark.start_time a -> age_at now a <= age_at now b.
Proof. unfold age_at, SPARK_LIFETIME. lra. Qed.

Lemma Spark_update_total (sp : Spark.t) (dt : R) :
  exists sp', Spark.update sp dt = Some sp'
              /\ Spark.start_time sp' = Spark.start_time sp
              /\ Spark.age sp' = Spark.age sp.
Proof.
  unfold Spark.update. destruct (Spark.position sp) as [x y].
  rewrite Vector_add_eq. cbn [bind]. eexists. split; [reflexivity |]. split; reflexivity.
Qed.

Lemma advance_total (dt now : R) (sp : Spark.t) :
  exists sp', advance dt now sp = Some sp'
              /\ Spark.start_time sp' = Spark.start_time sp
              /\ Spark.age sp' = age_at now sp.
Proof. apply Spark_update_total. Qed.

Lemma update_all_loop_cons (dt now : R) (sp : Spark.t) (l : list Spark.t) :
  Spark.update_all_loop dt now (sp :: l) =
  if Rgt_dec (age_at now sp) 1 then Some []
  else sp' <- advance dt now sp ;;
       rest <- Spark.update_all_loop dt now l ;;
       Some (sp' :: rest).
Proof.
  cbn [Spark.update_all_loop]. rewrite age_at_computed. reflexivity.
Qed.

Lemma update_all_loop_cut (dt now : R) (l : list Spark.t) :
  exists l',
    Spark.update_all_loop dt now l = Some l'
    /\ Forall2 (fun sp sp' => advance dt now sp = Some sp')
               (firstn (live_prefix now l) l) l'.
Proof.
  induction l as [| sp l [l' [Hl' Hcut]]].
  - exists []. split; [reflexivity | constructor].
  - rewrite update_all_loop_cons. cbn [live_prefix].
    destruct (Rgt_dec (age_at now sp) 1).
    + exists []. split; [reflexivity | constructor].
    + destruct (advance_total dt now sp) as [sp' [Hsp' _]].
      rewrite Hsp', Hl'. exists (sp' :: l'). split; [reflexivity |].
      cbn [firstn]. now constructor.
Qed.

Lemma live_prefix_le (now : R) (l : list Spark.t) :
  (live_prefix now l <= length l)%nat.
Proof.
  induction l as [| sp l IH]; cbn [live_prefix length]; [lia |].
  destruct (Rgt_dec (age_at now sp) 1); lia.
Qed.

Lemma live_prefix_live (now : R) (l : list Spark.t) (i : nat) (sp : Spark.t) :
  nth_error l i = Some sp -> (i < live_prefix now l)%nat -> age_at now sp <= 1.
Proof.
  revert i. induction l as [| a l IH]; intros i Hi Hlt; cbn [live_prefix] in Hlt.
  - lia.
  - destruct (Rgt_dec (age_at now a) 1) as [Hexp | Hlive]; [lia |].
    destruct i as [| i]; cbn [nth_error] in Hi.
    + injection Hi as <-. lra.
    + apply (IH i); [assumption | lia].
Qed.

Lemma live_prefix_stops (now : R) (l : list Spark.t) :
  live_prefix now l = length l
  \/ exists sp, nth_error l (live_prefix now l) = Some sp /\ age_at now sp > 1.
Proof.
  induction l as [| a l IH]; cbn [live_prefix length]; [now left |].
  destruct (Rgt_dec (age_at now a) 1) as [Hexp | Hlive].
  - right. exists a. now split.
  - destruct IH as [-> | [sp [Hsp Hexp]]]; [now left |].
    right. exists sp. now split.
Qed.

Lemma newest_first_tail (a : Spark.t) (l : list Spark.t) :
  Spark.newest_first (a :: l) ->
  Spark.newest_first l
  /\ Forall (fun b => Spark.start_time b <= Spark.start_time a) l.
Proof. intros H. now apply StronglySorted_inv in H. Qed.

(** In an age-ordered list the live sparks are exactly those before the
    cut. *)
Lemma live_prefix_sorted (now : R) (l : list Spark.t) (i : nat) (sp : Spark.t) :
  Spark.newest_first l -> nth_error l i = Some sp ->
  age_at now sp <= 1 -> (i < live_prefix now l)%nat.
Proof.
  revert i. induction l as [| a l IH]; intros i Hs Hi Hlive.
  - destruct i; discriminate.
  - apply newest_first_tail in Hs as [Hs Hhd]. cbn [live_prefix].
    destruct i as [| i]; cbn [nth_error] in Hi.
    + injection Hi as <-. destruct (Rgt_dec (age_at now a) 1); [lra | lia].
    + assert (Hle : Spark.start_time sp <= Spark.start_time a).
      { rewrite Forall_forall in Hhd. apply Hhd. eapply nth_error_In; eassumption. }
      pose proof (age_at_mono now a sp Hle).
      destruct (Rgt_dec (age_at now a) 1); [lra |].
      apply -> Nat.succ_lt_mono. now apply IH.
Qed.

Lemma Forall2_nth_error_l {A B : Type} (P : A -> B -> Prop) (l : list A) (l' : list B) :
  Forall2 P l l' ->
  forall i a, nth_error l i = Some a -> exists b, nth_error l' i = Some b /\ P a b.
Proof.
  induction 1 as [| a b l l' Hab _ IH]; intros i x Hi.
  - destruct i; discriminate.
  - destruct i as [| i]; cbn [nth_error] in *.
    + injection Hi as <-. eauto.
    + eauto.
Qed.

Lemma Forall2_length_eq {A B : Type} (P : A -> B -> Prop) (l : list A) (l' : list B) :
  Forall2 P l l' -> length l = length l'.
Proof. induction 1; cbn [length]; congruence. Qed.

Lemma Forall2_Forall_r {A B : Type} (P : A -> B -> Prop) (Q : B -> Prop)
    (l : list A) (l' : list B) :
  Forall2 P l l' -> (forall a b, In a l -> P a b -> Q b) -> Forall Q l'.
Proof.
  induction 1 as [| a b l l' Hab _ IH]; intros HQ; constructor.
  - apply (HQ a); [now left | assumption].
  - apply IH. intros x y Hx. apply HQ. now right.
Qed.

Lemma nth_error_firstn_lt {A : Type} (l : list A) (k i : nat) :
  (i < k)%nat -> nth_error (firstn k l) i = nth_error l i.
Proof.
  revert k i. induction l as [| a l IH]; intros k i Hlt.
  - now rewrite firstn_nil.
  - destruct k as [| k]; [lia |]. destruct i as [| i]; [reflexivity |].
    cbn [firstn nth_error]. apply IH. lia.
Qed.

Lemma update_all_tick (dt now : R) (g : Spark.globals) :
  exists l',
    Spark.update_all dt now g = Some (Spark.mkGlobals l' (Spark.rng g))
    /\ Forall2 (fun sp sp' => advance dt now sp = Some sp')
               (firstn (live_prefix now (Spark.sparks g)) (Spark.sparks g)) l'
    /\ Forall (fun sp' => Spark.age sp' = age_at now sp' /\ Spark.age sp' <= 1) l'.
Proof.
  destruct (update_all_loop_cut dt now (Spark.sparks g)) as [l' [Hl' Hcut]].
  exists l'. unfold Spark.update_all. rewrite Hl'. split; [reflexivity |].
  split; [assumption |].
  apply (Forall2_Forall_r _ _ _ _ Hcut). intros sp sp' Hin Hadv.
  destruct (advance_total dt now sp) as [sp'' [Hadv' [Hst Hage]]].
  rewrite Hadv in Hadv'. injection Hadv' as <-.
  assert (Hlive : age_at now sp <= 1).
  { apply In_nth_error in Hin as [i Hi].
    assert (Hlt : (i < live_prefix now (Spark.sparks g))%nat).
    { assert (Hlen : (i < length (firstn (live_prefix now (Spark.sparks g)) (Spark.sparks g)))%nat)
        by (apply nth_error_Some; congruence).
      rewrite length_firstn in Hlen. lia. }
    rewrite nth_error_firstn_lt in Hi by assumption.
    eapply live_prefix_live; eassumption. }
  unfold age_at in *. rewrite Hst. rewrite Hage. unfold age_at. lra.
Qed.

(** Where a spark of the list is after the call. *)
Lemma update_all_presence (dt now : R) (l l' : list Spark.t) (i : nat) (sp : Spark.t) :
  Forall2 (fun sp sp' => advance dt now sp = Some sp')
          (firstn (live_prefix now l) l) l' ->
  nth_error l i = Some sp ->
  ((i < live_prefix now l)%nat ->
     exists sp', nth_error l' i = Some sp' /\ advance dt now sp = Some sp')
  /\ ((live_prefix now l <= i)%nat -> nth_error l' i = None).
Proof.
  intros Hcut Hi. split; intros Hk.
  - apply (Forall2_nth_error_l _ _ _ Hcut).
    now rewrite nth_error_firstn_lt.
  - apply nth_error_None. rewrite <- (Forall2_length_eq _ _ _ Hcut), length_firstn. lia.
Qed.

(** ** Spark: runs of creations and culls *)

Lemma init_front (p : R * R) (d t : R) (g : Spark.globals) :
  exists sp,
    Spark.sparks (Spark.init p d t g) = sp :: Spark.sparks g
    /\ Spark.position sp = p /\ Spark.start_time sp = t /\ Spark.age sp = 0.
Proof.
  unfold Spark.init, Random.uniform, Random.random. cbn [Spark.sparks].
  eexists. split; [reflexivity |]. repeat split.
Qed.

Lemma started_by_le (t u : R) (l : list Spark.t) :
  t <= u -> started_by t l -> started_by u l.
Proof.
  intros Htu. apply Forall_impl. intros sp Hsp. lra.
Qed.

Lemma newest_first_cons (sp : Spark.t) (l : list Spark.t) :
  Spark.newest_first l -> started_by (Spark.start_time sp) l ->
  Spark.newest_first (sp :: l).
Proof. intros Hs Hb. now constructor. Qed.

Lemma advance_keeps_order (dt now : R) (l l' : list Spark.t) :
  Forall2 (fun sp sp' => advance dt now sp = Some sp') l l' ->
  (Spark.newest_first l -> Spark.newest_first l')
  /\ (forall t, started_by t l -> started_by t l').
Proof.
  induction 1 as [| sp sp' l l' Hadv Hrest [IHs IHb]].
  - split; [intros _; constructor | intros t _; constructor].
  - destruct (advance_total dt now sp) as [sp'' [Hadv' [Hst _]]].
    rewrite Hadv in Hadv'. injection Hadv' as <-.
    split.
    + intros Hs. apply newest_first_tail in Hs as [Hs Hhd].
      apply newest_first_cons; [auto |]. rewrite Hst. now apply IHb.
    + intros t Hb. inversion Hb as [| ? ? Hsp Hl]; subst.
      constructor; [lra | now apply IHb].
Qed.

Lemma newest_first_firstn (k : nat) (l : list Spark.t) :
  Spark.newest_first l -> Spark.newest_first (firstn k l).
Proof.
  revert k. induction l as [| a l IH]; intros k Hs.
  - now rewrite firstn_nil.
  - destruct k as [| k]; [constructor |].
    apply newest_first_tail in Hs as [Hs Hhd]. cbn [firstn].
    apply newest_first_cons; [now apply IH |].
    unfold started_by. rewrite Forall_forall in *. intros x Hx.
    apply Hhd. rewrite <- (firstn_skipn k l). apply in_or_app. now left.
Qed.

Lemma started_by_firstn (t : R) (k : nat) (l : list Spark.t) :
  started_by t l -> started_by t (firstn k l).
Proof.
  unfold started_by. rewrite !Forall_forall. intros H x Hx. apply H.
  rewrite <- (firstn_skipn k l). apply in_or_app. now left.
Qed.

Lemma spark_step_order (o : spark_op) (g : Spark.globals) (t u : R) :
  Spark.newest_first (Spark.sparks g) -> started_by t (Spark.sparks g) ->
  t <= u -> (forall p d t', o = Create p d t' -> t' = u) ->
  exists g',
    spark_step o g = Some g'
    /\ Spark.newest_first (Spark.sparks g') /\ started_by u (Spark.sparks g').
Proof.
  intros Hs Hb Htu Ho. destruct o as [p d t' | dt now]; cbn [spark_step].
  - rewrite (Ho p d t' eq_refl) in *. eexists. split; [reflexivity |].
    destruct (init_front p d u g) as [sp [-> [_ [Hst _]]]].
    split.
    + apply newest_first_cons; [assumption |]. rewrite Hst.
      now apply (started_by_le t).
    + constructor; [lra | now apply (started_by_le t)].
  - destruct (update_all_tick dt now g) as [l' [-> [Hcut _]]].
    eexists. split; [reflexivity |]. cbn [Spark.sparks].
    destruct (advance_keeps_order _ _ _ _ Hcut) as [Hs' Hb'].
    split.
    + apply Hs'. now apply newest_first_firstn.
    + apply Hb'. apply started_by_firstn. now apply (started_by_le t).
Qed.

Lemma spark_run_order (os : list spark_op) :
  forall (g : Spark.globals) (t : R),
    Spark.newest_first (Spark.sparks g) -> started_by t (Spark.sparks g) ->
    nondecreasing_from t (stamps os) ->
    exists g',
      spark_run os g = Some g' /\ Spark.newest_first (Spark.sparks g').
Proof.
  induction os as [| o os IH]; intros g t Hs Hb Hts.
  - exists g. now split.
  - destruct o as [p d t' | dt now]; cbn [stamps nondecreasing_from] in Hts.
    + destruct Hts as [Htt' Hts].
      destruct (spark_step_order (Create p d t') g t t' Hs Hb Htt')
        as [g1 [Hg1 [Hs1 Hb1]]]; [now intros ? ? ? [= _ _ <-] |].
      destruct (IH g1 t' Hs1 Hb1 Hts) as [g' [Hg' Hs']].
      exists g'. cbn [spark_run]. rewrite Hg1. now split.
    + destruct (spark_step_order (Cull dt now) g t t Hs Hb (Rle_refl t))
        as [g1 [Hg1 [Hs1 Hb1]]]; [intros; discriminate |].
      destruct (IH g1 t Hs1 Hb1 Hts) as [g' [Hg' Hs']].
      exists g'. cbn [spark_run]. rewrite Hg1. now split.
Qed.

Lemma age_at_start (now : R) (a b : Spark.t) :
  Spark.start_time a = Spark.start_time b -> age_at now a = age_at now b.
Proof. unfold age_at. now intros ->. Qed.

Lemma spark_run_length (os : list spark_op) :
  forall g g', spark_run os g = Some g' ->
    (length (Spark.sparks g') <= creations os + length (Spark.sparks g))%nat.
Proof.
  induction os as [| o os IH]; intros g g' Hrun; cbn [spark_run] in Hrun.
  - injection Hrun as <-. cbn [creations]. lia.
  - destruct o as [p d t | dt now]; cbn [spark_step bind creations] in *.
    + apply IH in Hrun. destruct (init_front p d t g) as [sp [Hsp _]].
      rewrite Hsp in Hrun. cbn [length] in Hrun. lia.
    + destruct (update_all_tick dt now g) as [l' [Hl' [Hcut _]]].
      rewrite Hl' in Hrun. cbn [bind] in Hrun. apply IH in Hrun.
      cbn [Spark.sparks] in Hrun.
      apply Forall2_length_eq in Hcut. rewrite length_firstn in Hcut. lia.
Qed.

(** A spark of an age-ordered list, followed through a run by its index
    (each creation moves it one place back): it is still there when every
    cull so far found its age at most 1, and gone once one cull found it
    above 1. *)
Lemma spark_run_lifetime (os : list spark_op) :
  forall (g : Spark.globals) (t : R),
    Spark.newest_first (Spark.sparks g) -> started_by t (Spark.sparks g) ->
    nondecreasing_from t (stamps os) ->
    forall g', spark_run os g = Some g' ->
    forall i sp, nth_error (Spark.sparks g) i = Some sp ->
      (Forall (fun now => age_at now sp <= 1) (cull_times os) ->
         exists sp', nth_error (Spark.sparks g') (creations os + i) = Some sp'
                     /\ Spark.start_time sp' = Spark.start_time sp)
      /\ (Exists (fun now => age_at now sp > 1) (cull_times os) ->
         nth_error (Spark.sparks g') (creations os + i) = None).
Proof.
  induction os as [| o os IH]; intros g t Hs Hb Hts g' Hrun i sp Hi.
  - injection Hrun as <-. split.
    + intros _. exists sp. now split.
    + intros H. inversion H.
  - destruct o as [p d t' | dt now];
      cbn [spark_run stamps nondecreasing_from cull_times creations] in *.
    + destruct Hts as [Htt' Hts].
      destruct (spark_step_order (Create p d t') g t t' Hs Hb Htt')
        as [g1 [Hg1 [Hs1 Hb1]]]; [now intros ? ? ? [= _ _ <-] |].
      rewrite Hg1 in Hrun. cbn [bind] in Hrun.
      assert (Hi1 : nth_error (Spark.sparks g1) (S i) = Some sp).
      { cbn [spark_step] in Hg1. injection Hg1 as <-.
        destruct (init_front p d t' g) as [new [-> _]]. exact Hi. }
      specialize (IH g1 t' Hs1 Hb1 Hts g' Hrun (S i) sp Hi1).
      rewrite Nat.add_succ_r in IH. exact IH.
    + destruct (spark_step_order (Cull dt now) g t t Hs Hb (Rle_refl t))
        as [g1 [Hg1 [Hs1 Hb1]]]; [intros; discriminate |].
      rewrite Hg1 in Hrun. cbn [bind] in Hrun.
      cbn [spark_step] in Hg1.
      destruct (update_all_tick dt now g) as [l' [Hl' [Hcut _]]].
      rewrite Hl' in Hg1. injection Hg1 as <-. cbn [Spark.sparks] in *.
      destruct (update_all_presence dt now _ _ i sp Hcut Hi) as [Hin Hout].
      destruct (Rle_dec (age_at now sp) 1) as [Hlive | Hexp].
      * destruct Hin as [sp1 [Hi1 Hadv]];
          [now apply (live_prefix_sorted now _ i sp) |].
        destruct (advance_total dt now sp) as [sp1' [Hadv' [Hst _]]].
        rewrite Hadv in Hadv'. injection Hadv' as <-.
        destruct (IH (Spark.mkGlobals l' (Spark.rng g)) t Hs1 Hb1 Hts g' Hrun i sp1 Hi1)
          as [IHin IHout].
        split.
        -- intros Hall. inversion Hall as [| ? ? _ Hrest]; subst.
           destruct IHin as [sp' [Hsp' Hst']].
           { revert Hrest. apply Forall_impl. intros u.
             now rewrite (age_at_start u sp1 sp Hst). }
           exists sp'. split; [assumption | congruence].
        -- intros Hex. inversion Hex as [? ? Hnow | ? ? Hrest]; subst; [lra |].
           apply IHout. revert Hrest. apply Exists_impl. intros u.
           now rewrite (age_at_start u sp1 sp Hst).
      * split.
        -- intros Hall. inversion Hall; subst. contradiction.
        -- intros _. apply nth_error_None.
           assert (Hk : (live_prefix now (Spark.sparks g) <= i)%nat).
           { destruct (Nat.le_gt_cases (live_prefix now (Spark.sparks g)) i) as [H | H];
               [assumption |].
             exfalso. apply Hexp. eapply live_prefix_live; eassumption. }
           pose proof (spark_run_length os _ _ Hrun) as Hlen.
           cbn [Spark.sparks] in Hlen.
           apply Forall2_length_eq in Hcut. rewrite length_firstn in Hcut. lia.
Qed.

(** C2. On an age-ordered list [update_all] succeeds and cuts the list at
    the first spark whose recomputed age (now - start_time) / SPARK_LIFETIME
    exceeds 1: the sparks before the cut all have age at most 1 and are each
    advanced in place, that spark and all later ones are deleted; so a spark
    of the list is kept when its age is at most 1 and deleted when it is
    above 1, and every survivor carries its recomputed age, at most 1.
    Through any run of creations (with timestamps that never go down) and
    culls, the spark is present as long as every cull found its age at most
    1 and absent after any cull that found it above 1. *)
Theorem update_all_cuts_at_first_expired
    (dt now : R) (g : Spark.globals) (os : list spark_op) (t : R)
    (Hsorted : Spark.newest_first (Spark.sparks g))
    (Hbound : started_by t (Spark.sparks g))
    (Hstamps : nondecreasing_from t (stamps os)) :
  (exists l',
      Spark.update_all dt now g = Some (Spark.mkGlobals l' (Spark.rng g))
      /\ Forall2 (fun sp sp' => advance dt now sp = Some sp')
                 (firstn (live_prefix now (Spark.sparks g)) (Spark.sparks g)) l'
      /\ (forall i sp, nth_error (Spark.sparks g) i = Some sp ->
            (i < live_prefix now (Spark.sparks g))%nat -> age_at now sp <= 1)
      /\ (live_prefix now (Spark.sparks g) = length (Spark.sparks g)
          \/ exists sp,
               nth_error (Spark.sparks g) (live_prefix now (Spark.sparks g)) = Some sp
               /\ age_at now sp > 1)
      /\ (forall i sp, nth_error (Spark.sparks g) i = Some sp ->
            (age_at now sp <= 1 ->
               exists sp', nth_error l' i = Some sp'
                           /\ advance dt now sp = Some sp'
                           /\ Spark.start_time sp' = Spark.start_time sp)
            /\ (age_at now sp > 1 -> nth_error l' i = None))
      /\ Forall (fun sp' => Spark.age sp' = age_at now sp' /\ Spark.age sp' <= 1) l')
  /\ (exists g',
      spark_run os g = Some g'
      /\ forall i sp, nth_error (Spark.sparks g) i = Some sp ->
           (Forall (fun now => age_at now sp <= 1) (cull_times os) ->
              exists sp', nth_error (Spark.sparks g') (creations os + i) = Some sp'
                          /\ Spark.start_time sp' = Spark.start_time sp)
           /\ (Exists (fun now => age_at now sp > 1) (cull_times os) ->
              nth_error (Spark.sparks g') (creations os + i) = None)).
Proof.
  split.
  - destruct (update_all_tick dt now g) as [l' [Hl' [Hcut Hsurv]]].
    exists l'. split; [assumption |]. split; [assumption |].
    split; [apply live_prefix_live |]. split; [apply live_prefix_stops |].
    split; [| assumption].
    intros i sp Hi.
    destruct (update_all_presence dt now _ _ i sp Hcut Hi) as [Hin Hout].
    split.
    + intros Hlive.
      destruct Hin as [sp' [Hi' Hadv]]; [now apply (live_prefix_sorted now _ i sp) |].
      exists sp'. split; [assumption |]. split; [assumption |].
      destruct (advance_total dt now sp) as [sp'' [Hadv' [Hst _]]]. congruence.
    + intros Hexp. apply Hout.
      destruct (Nat.le_gt_cases (live_prefix now (Spark.sparks g)) i) as [H | H];
        [assumption |].
      pose proof (live_prefix_live now _ i sp Hi H). lra.
  - destruct (spark_run_order os g t Hsorted Hbound Hstamps) as [g' [Hrun _]].
    exists g'. split; [assumption |].
    now apply (spark_run_lifetime os g t).
Qed.

(** The sample sparks and the sample run meet the hypotheses. *)
Lemma two_sparks_ordered :
  Spark.newest_first (Spark.sparks two_sparks)
  /\ started_by 1 (Spark.sparks two_sparks).
Proof.
  split; repeat constructor; cbn [Spark.start_time]; lra.
Defined.

Lemma short_run_stamps : nondecreasing_from 1 (stamps short_run).
Proof.
  cbn [short_run stamps nondecreasing_from]. split; [lra | exact I].
Defined.

Lemma update_all_cuts_at_first_expired_witness :
  exists g',
    spark_run short_run two_sparks = Some g'
    /\ forall i sp, nth_error (Spark.sparks two_sparks) i = Some sp ->
         (Forall (fun now => age_at now sp <= 1) (cull_times short_run) ->
            exists sp', nth_error (Spark.sparks g') (creations short_run + i) = Some sp'
                        /\ Spark.start_time sp' = Spark.start_time sp)
         /\ (Exists (fun now => age_at now sp > 1) (cull_times short_run) ->
            nth_error (Spark.sparks g') (creations short_run + i) = None).
Proof.
  exact (proj2 (update_all_cuts_at_first_expired
                  1 (3 / 2) two_sparks short_run 1
                  (proj1 two_sparks_ordered) (proj2 two_sparks_ordered)
                  short_run_stamps)).
Defined.

(** ** Ship: what one update does *)

Lemma fuel_burned_le (dt : R) (s : Ship.t) : fuel_burned dt s <= Ship.fuel s.
Proof.
  unfold fuel_burned.
  destruct (Rgt_dec (Ship.throttle s * THROTTLE_MAX * dt) (Ship.fuel s)); lra.
Qed.

Lemma fuel_burned_nonneg (dt : R) (s : Ship.t) :
  0 <= dt -> 0 <= Ship.throttle s -> 0 <= Ship.fuel s -> 0 <= fuel_burned dt s.
Proof.
  intros Hdt Hth Hf. unfold fuel_burned, THROTTLE_MAX.
  destruct (Rgt_dec (Ship.throttle s * 600 * dt) (Ship.fuel s)); [lra | nra].
Qed.

(** The thrust branch never divides by zero: after the deduction the fuel
    is either 0 or the difference of the fuel and a burn no larger. *)
Lemma thrust_spec (dt now : R) (s : Ship.t) (g : Spark.globals) :
  Ship.throttle s > 0 ->
  exists v,
    Vector.add (Ship.velocity s)
      (Vector.mk (Ship.orientation s + HALF_PI)
         (fuel_burned dt s * EXHAUST_VELOCITY
          / (EMPTY_MASS + (Ship.fuel s - fuel_burned dt s)))) = Some v
    /\ Ship.thrust dt now s g =
       Some (Ship.mk (Ship.position s) v (Ship.orientation s)
               (if Rgt_dec (Ship.throttle s * THROTTLE_MAX * dt) (Ship.fuel s)
                then 0 else Ship.throttle s)
               (Ship.rotation s) (Ship.fuel s - fuel_burned dt s)
               (Ship.image_ s) (Ship.sprite_image s),
             Ship.spawn (Z.to_nat (py_int (fuel_burned dt s * SPARKS_PER_KG)))
               (Ship.position s) (Ship.orientation s - HALF_PI) now g).
Proof.
  intros Hth.
  destruct (Vector_add_total (Ship.velocity s)
      (Vector.mk (Ship.orientation s + HALF_PI)
         (fuel_burned dt s * EXHAUST_VELOCITY
          / (EMPTY_MASS + (Ship.fuel s - fuel_burned dt s))))) as [v Hv].
  exists v. split; [assumption |].
  pose proof (fuel_burned_le dt s) as Hle.
  unfold Ship.thrust. destruct (Rgt_dec (Ship.throttle s) 0); [| contradiction].
  unfold fuel_burned in *.
  destruct (Rgt_dec (Ship.throttle s * THROTTLE_MAX * dt) (Ship.fuel s)) as [Hout | Hin];
    unfold Ship.mass, Ship.set_velocity, Ship.set_throttle, Ship.set_fuel;
    cbn [Ship.fuel Ship.velocity Ship.orientation Ship.position Ship.throttle
         Ship.rotation Ship.image_ Ship.sprite_image].
  - rewrite py_div_nonzero by (unfold EMPTY_MASS; lra). cbn [bind].
    replace (0 + EMPTY_MASS) with (EMPTY_MASS + (Ship.fuel s - Ship.fuel s)) by ring.
    rewrite Hv. cbn [bind]. do 3 f_equal. ring.
  - rewrite py_div_nonzero by (unfold EMPTY_MASS; lra). cbn [bind].
    rewrite (Rplus_comm _ EMPTY_MASS).
    rewrite Hv. reflexivity.
Qed.

Lemma thrust_idle (dt now : R) (s : Ship.t) (g : Spark.globals) :
  ~ Ship.throttle s > 0 -> Ship.thrust dt now s g = Some (s, g).
Proof.
  intros Hth. unfold Ship.thrust.
  destruct (Rgt_dec (Ship.throttle s) 0); [contradiction | reflexivity].
Qed.

(** The ship as [update] has it when it reaches the thrust branch. *)
Lemma update_spec (dt now : R) (s : Ship.t) (g : Spark.globals) :
  exists v,
    Vector.add (Ship.velocity s) (gravity dt) = Some v
    /\ Ship.update dt now s g =
       ('(s1, g1) <- Ship.thrust dt now
                       (Ship.mk (moved dt s) v (Ship.orientation s) (Ship.throttle s)
                                (Ship.rotation s) (Ship.fuel s)
                                (Ship.image_ s) (Ship.sprite_image s)) g ;;
        Some (Ship.turn dt s1, g1)).
Proof.
  destruct (Vector_add_total (Ship.velocity s) (gravity dt)) as [v Hv].
  exists v. split; [assumption |].
  unfold Ship.update, moved. destruct (Ship.position s) as [x y].
  unfold Ship.set_position. cbn [Ship.velocity fst snd].
  unfold gravity in Hv. rewrite Hv. reflexivity.
Qed.

Lemma turn_frame (dt : R) (s : Ship.t) :
  Ship.position (Ship.turn dt s) = Ship.position s
  /\ Ship.velocity (Ship.turn dt s) = Ship.velocity s
  /\ Ship.throttle (Ship.turn dt s) = Ship.throttle s
  /\ Ship.rotation (Ship.turn dt s) = Ship.rotation s
  /\ Ship.fuel (Ship.turn dt s) = Ship.fuel s.
Proof.
  unfold Ship.turn. destruct (Z.eq_dec (Ship.rotation s) 0); [now repeat split |].
  cbv zeta.
  destruct (Req_dec_T _ 0); now repeat split.
Qed.

Lemma turn_still (dt : R) (s : Ship.t) :
  Ship.rotation s = 0%Z -> Ship.turn dt s = s.
Proof.
  intros Hr. unfold Ship.turn.
  destruct (Z.eq_dec (Ship.rotation s) 0); [reflexivity | contradiction].
Qed.

(** [update] with the throttle open, and with it closed. *)
Lemma update_thrusting (dt now : R) (s : Ship.t) (g : Spark.globals) :
  Ship.throttle s > 0 ->
  exists v1 v2,
    Vector.add (Ship.velocity s) (gravity dt) = Some v1
    /\ Vector.add v1
         (Vector.mk (Ship.orientation s + HALF_PI)
            (fuel_burned dt s * EXHAUST_VELOCITY
             / (EMPTY_MASS + (Ship.fuel s - fuel_burned dt s)))) = Some v2
    /\ Ship.update dt now s g =
       Some (Ship.turn dt
               (Ship.mk (moved dt s) v2 (Ship.orientation s)
                  (if Rgt_dec (Ship.throttle s * THROTTLE_MAX * dt) (Ship.fuel s)
                   then 0 else Ship.throttle s)
                  (Ship.rotation s) (Ship.fuel s - fuel_burned dt s)
                  (Ship.image_ s) (Ship.sprite_image s)),
             Ship.spawn (Z.to_nat (py_int (fuel_burned dt s * SPARKS_PER_KG)))
               (moved dt s) (Ship.orientation s - HALF_PI) now g).
Proof.
  intros Hth. destruct (update_spec dt now s g) as [v1 [Hv1 Hupd]].
  exists v1. rewrite Hupd.
  match goal with |- context [Ship.thrust dt now ?s1 g] =>
    destruct (thrust_spec dt now s1 g Hth) as [v2 [Hv2 Hthrust]];
    rewrite Hthrust
  end.
  exists v2. split; [assumption |]. split; [exact Hv2 | reflexivity].
Qed.

Lemma update_idle (dt now : R) (s : Ship.t) (g : Spark.globals) :
  ~ Ship.throttle s > 0 ->
  exists v1,
    Vector.add (Ship.velocity s) (gravity dt) = Some v1
    /\ Ship.update dt now s g =
       Some (Ship.turn dt
               (Ship.mk (moved dt s) v1 (Ship.orientation s) (Ship.throttle s)
                  (Ship.rotation s) (Ship.fuel s)
                  (Ship.image_ s) (Ship.sprite_image s)),
             g).
Proof.
  intros Hth. destruct (update_spec dt now s g) as [v1 [Hv1 Hupd]].
  exists v1. split; [assumption |]. rewrite Hupd.
  now rewrite thrust_idle by assumption.
Qed.

(** [update] always returns, and these are the fuel, the throttle and the
    sparks it leaves. *)
Lemma update_fuel_throttle (dt now : R) (s : Ship.t) (g : Spark.globals) :
  exists s' g',
    Ship.update dt now s g = Some (s', g')
    /\ Ship.rotation s' = Ship.rotation s
    /\ Ship.position s' = moved dt s
    /\ (Ship.throttle s > 0 ->
          Ship.fuel s' = Ship.fuel s - fuel_burned dt s
          /\ Ship.throttle s' =
             (if Rgt_dec (Ship.throttle s * THROTTLE_MAX * dt) (Ship.fuel s)
              then 0 else Ship.throttle s)
          /\ g' = Ship.spawn (Z.to_nat (py_int (fuel_burned dt s * SPARKS_PER_KG)))
                    (moved dt s) (Ship.orientation s - HALF_PI) now g)
    /\ (~ Ship.throttle s > 0 ->
          Ship.fuel s' = Ship.fuel s /\ Ship.throttle s' = Ship.throttle s /\ g' = g).
Proof.
  destruct (Rgt_dec (Ship.throttle s) 0) as [Hth | Hth].
  - destruct (update_thrusting dt now s g Hth) as [v1 [v2 [_ [_ Hupd]]]].
    rewrite Hupd. eexists. eexists. split; [reflexivity |].
    match goal with |- context [Ship.turn dt ?s2] =>
      destruct (turn_frame dt s2) as [Hp [_ [Ht [Hr Hf]]]];
      rewrite Hp, Ht, Hr, Hf
    end.
    split; [reflexivity |]. split; [reflexivity |]. split; [| contradiction].
    intros _. now repeat split.
  - destruct (update_idle dt now s g Hth) as [v1 [_ Hupd]].
    rewrite Hupd. eexists. eexists. split; [reflexivity |].
    match goal with |- context [Ship.turn dt ?s2] =>
      destruct (turn_frame dt s2) as [Hp [_ [Ht [Hr Hf]]]];
      rewrite Hp, Ht, Hr, Hf
    end.
    split; [reflexivity |]. split; [reflexivity |]. split; [contradiction |].
    intros _. now repeat split.
Qed.

Lemma spawn_sparks (n : nat) (p : R * R) (d now : R) :
  forall g, exists new,
    Spark.sparks (Ship.spawn n p d now g) = new ++ Spark.sparks g
    /\ length new = n
    /\ Forall (fun sp => Spark.start_time sp = now /\ Spark.position sp = p) new.
Proof.
  induction n as [| n IH]; intros g; cbn [Ship.spawn].
  - exists []. now repeat split.
  - destruct (IH (Spark.init p d now g)) as [new [Hnew [Hlen Hall]]].
    destruct (init_front p d now g) as [sp [Hsp [Hp [Hst _]]]].
    exists (new ++ [sp]). rewrite Hnew, Hsp, <- app_assoc. split; [reflexivity |].
    split.
    + rewrite length_app. cbn [length]. lia.
    + apply Forall_app. split; [assumption |]. now repeat constructor.
Qed.

Lemma spawn_is_run (n : nat) (p : R * R) (d now : R) :
  forall g, spark_run (repeat (Create p d now) n) g = Some (Ship.spawn n p d now g).
Proof.
  induction n as [| n IH]; intros g; cbn [repeat spark_run Ship.spawn spark_step bind].
  - reflexivity.
  - apply IH.
Qed.

(** What [update] does to the spark list is a run of creations, all stamped
    [now]. *)
Lemma update_creates (dt now : R) (s s' : Ship.t) (g g' : Spark.globals) :
  Ship.update dt now s g = Some (s', g') ->
  exists n,
    spark_run (repeat (Create (Ship.position s') (Ship.orientation s - HALF_PI) now) n) g
    = Some g'.
Proof.
  intros Hupd.
  destruct (update_fuel_throttle dt now s g) as [s1 [g1 [Hupd1 [_ [Hpos [Hon Hoff]]]]]].
  rewrite Hupd in Hupd1. injection Hupd1 as <- <-.
  destruct (Rgt_dec (Ship.throttle s) 0) as [Hth | Hth].
  - destruct (Hon Hth) as [_ [_ ->]]. eexists. rewrite Hpos. apply spawn_is_run.
  - destruct (Hoff Hth) as [_ [_ ->]]. exists O. reflexivity.
Qed.

(** ** Ship: the throttle when the tank runs dry *)

Lemma update_overdraw (dt now : R) (s : Ship.t) (g : Spark.globals) :
  Ship.throttle s > 0 ->
  Ship.throttle s * THROTTLE_MAX * dt > Ship.fuel s ->
  exists s' g',
    Ship.update dt now s g = Some (s', g')
    /\ Ship.fuel s' = 0 /\ Ship.throttle s' = 0.
Proof.
  intros Hth Hout.
  destruct (update_fuel_throttle dt now s g) as [s' [g' [Hupd [_ [_ [Hon _]]]]]].
  exists s', g'. split; [assumption |].
  destruct (Hon Hth) as [Hf [Ht _]]. rewrite Hf, Ht. unfold fuel_burned.
  destruct (Rgt_dec (Ship.throttle s * THROTTLE_MAX * dt) (Ship.fuel s));
    [split; [ring | reflexivity] | contradiction].
Qed.

Lemma update_exact_burn (dt now : R) (s : Ship.t) (g : Spark.globals) :
  Ship.throttle s > 0 ->
  Ship.throttle s * THROTTLE_MAX * dt = Ship.fuel s ->
  exists s' g',
    Ship.update dt now s g = Some (s', g')
    /\ Ship.fuel s' = 0 /\ Ship.throttle s' = Ship.throttle s.
Proof.
  intros Hth Heq.
  destruct (update_fuel_throttle dt now s g) as [s' [g' [Hupd [_ [_ [Hon _]]]]]].
  exists s', g'. split; [assumption |].
  destruct (Hon Hth) as [Hf [Ht _]]. rewrite Hf, Ht. unfold fuel_burned.
  destruct (Rgt_dec (Ship.throttle s * THROTTLE_MAX * dt) (Ship.fuel s));
    [lra | split; [lra | reflexivity]].
Qed.

(** C1. The boundary case fails in the code: a ship at full throttle with
    600 kg of fuel, updated with dt = 1, burns exactly the 600 kg that are
    left (dt > 0, fuel_burned equals the remaining fuel); the fuel is 0 after
    the call and the throttle is still 1. *)
Theorem exact_burn_leaves_throttle_open (now : R) (g : Spark.globals) :
  0 < 1
  /\ Ship.throttle ship_last_drop * THROTTLE_MAX * 1 = Ship.fuel ship_last_drop
  /\ Ship.fuel ship_last_drop = 600
  /\ exists s' g',
       Ship.update 1 now ship_last_drop g = Some (s', g')
       /\ Ship.fuel s' = 0 /\ Ship.throttle s' = 1 /\ Ship.throttle s' <> 0.
Proof.
  assert (Hth : Ship.throttle ship_last_drop = 1) by (cbn; lra).
  assert (Hfuel : Ship.fuel ship_last_drop = 600) by reflexivity.
  assert (Heq : Ship.throttle ship_last_drop * THROTTLE_MAX * 1
                = Ship.fuel ship_last_drop)
    by (rewrite Hth, Hfuel; unfold THROTTLE_MAX; lra).
  split; [lra |]. split; [assumption |]. split; [assumption |].
  destruct (update_exact_burn 1 now ship_last_drop g) as [s' [g' [Hupd [Hf Ht]]]];
    [lra | assumption |].
  exists s', g'. rewrite Ht, Hth. repeat split; try assumption. lra.
Qed.

(** ** Ship: fuel *)

Lemma update_fuel_bounds (dt now : R) (s : Ship.t) (g : Spark.globals) :
  0 <= dt -> 0 <= Ship.fuel s ->
  exists s' g',
    Ship.update dt now s g = Some (s', g')
    /\ 0 <= Ship.fuel s' <= Ship.fuel s.
Proof.
  intros Hdt Hfuel.
  destruct (update_fuel_throttle dt now s g) as [s' [g' [Hupd [_ [_ [Hon Hoff]]]]]].
  exists s', g'. split; [assumption |].
  destruct (Rgt_dec (Ship.throttle s) 0) as [Hth | Hth].
  - destruct (Hon Hth) as [-> _].
    pose proof (fuel_burned_le dt s).
    pose proof (fuel_burned_nonneg dt s Hdt). lra.
  - destruct (Hoff Hth) as [-> _]. lra.
Qed.

Lemma increase_throttle_fuel (s : Ship.t) :
  Ship.fuel (Ship.increase_throttle s) = Ship.fuel s.
Proof.
  unfold Ship.increase_throttle. destruct (Req_dec_T (Ship.fuel s) 0); [reflexivity |].
  cbv zeta. destruct (Rgt_dec _ 1.0); reflexivity.
Qed.

Lemma decrease_throttle_fuel (s : Ship.t) :
  Ship.fuel (Ship.decrease_throttle s) = Ship.fuel s.
Proof.
  unfold Ship.decrease_throttle. cbv zeta. destruct (Rlt_dec _ 0.0); reflexivity.
Qed.

Lemma increase_throttle_empty (s : Ship.t) :
  Ship.fuel s = 0 -> Ship.increase_throttle s = s.
Proof.
  intros Hf. unfold Ship.increase_throttle.
  destruct (Req_dec_T (Ship.fuel s) 0); [reflexivity | contradiction].
Qed.

Lemma step_fuel (c : Main.call) (st : Main.state) :
  forward c -> 0 <= Ship.fuel (Main.ship st) ->
  exists st',
    Main.step c st = Some st'
    /\ 0 <= Ship.fuel (Main.ship st') <= Ship.fuel (Main.ship st).
Proof.
  intros Hc Hfuel. destruct c as [dt now | dt now | | | r]; cbn [Main.step forward] in *.
  - destruct (update_fuel_bounds dt now (Main.ship st) (Main.globals st) Hc Hfuel)
      as [s' [g' [-> Hb]]].
    eexists. split; [reflexivity | exact Hb].
  - destruct (update_all_tick dt now (Main.globals st)) as [l' [-> _]].
    eexists. split; [reflexivity |]. cbn [Main.ship]. lra.
  - eexists. split; [reflexivity |]. cbn [Main.ship].
    rewrite increase_throttle_fuel. lra.
  - eexists. split; [reflexivity |]. cbn [Main.ship].
    rewrite decrease_throttle_fuel. lra.
  - eexists. split; [reflexivity |]. cbn. lra.
Qed.

Lemma run_fuel (cs : list Main.call) :
  forall st, Forall forward cs -> 0 <= Ship.fuel (Main.ship st) ->
  exists st',
    Main.run cs st = Some st'
    /\ 0 <= Ship.fuel (Main.ship st') <= Ship.fuel (Main.ship st).
Proof.
  induction cs as [| c cs IH]; intros st Hcs Hfuel.
  - exists st. split; [reflexivity | lra].
  - inversion Hcs as [| ? ? Hc Hrest]; subst.
    destruct (step_fuel c st Hc Hfuel) as [st1 [Hst1 Hb1]].
    destruct (IH st1 Hrest (proj1 Hb1)) as [st' [Hst' Hb']].
    exists st'. cbn [Main.run]. rewrite Hst1. split; [exact Hst' | lra].
Qed.

(** C3. Along every trace of calls on the ship and the sparks whose updates
    have dt >= 0, started with fuel >= 0 (whatever the throttle), the run
    returns, the fuel never rises and never goes below 0, it stays 0 once it
    is 0, and on a ship without fuel [increase_throttle] changes nothing. *)
Theorem fuel_never_rises (cs : list Main.call) (st : Main.state)
    (Hdt : Forall forward cs) (Hfuel : 0 <= Ship.fuel (Main.ship st)) :
  exists st',
    Main.run cs st = Some st'
    /\ 0 <= Ship.fuel (Main.ship st') <= Ship.fuel (Main.ship st)
    /\ (Ship.fuel (Main.ship st) = 0 ->
          Ship.fuel (Main.ship st') = 0
          /\ Ship.increase_throttle (Main.ship st') = Main.ship st')
    /\ (forall s, Ship.fuel s = 0 -> Ship.increase_throttle s = s).
Proof.
  destruct (run_fuel cs st Hdt Hfuel) as [st' [Hrun Hb]].
  exists st'. split; [assumption |]. split; [assumption |].
  split; [| exact increase_throttle_empty].
  intros H0. assert (Hf' : Ship.fuel (Main.ship st') = 0) by lra.
  split; [assumption | now apply increase_throttle_empty].
Qed.

Lemma fuel_never_rises_witness :
  exists st',
    Main.run [Main.ShipUpdate 1 0; Main.IncreaseThrottle; Main.ShipUpdate 1 1]
             (Main.start (fun _ => 0)) = Some st'
    /\ 0 <= Ship.fuel (Main.ship st') <= 5000.
Proof.
  assert (Hdt : Forall forward
                  [Main.ShipUpdate 1 0; Main.IncreaseThrottle; Main.ShipUpdate 1 1])
    by (repeat constructor; cbn; lra).
  assert (Hfuel : 0 <= Ship.fuel (Main.ship (Main.start (fun _ => 0))))
    by (cbn; lra).
  destruct (fuel_never_rises _ _ Hdt Hfuel) as [st' [Hrun [Hb _]]].
  exists st'. split; [exact Hrun | exact Hb].
Defined.

(** ** Ship: the throttle commands *)

Lemma increase_throttle_throttle (s : Ship.t) :
  Ship.fuel s <> 0 ->
  Ship.throttle (Ship.increase_throttle s) = Rmin 1 (Ship.throttle s + 0.1).
Proof.
  intros Hf. unfold Ship.increase_throttle.
  destruct (Req_dec_T (Ship.fuel s) 0); [contradiction |]. cbv zeta.
  unfold Ship.set_throttle. cbn [Ship.throttle].
  unfold Rmin. destruct (Rgt_dec (Ship.throttle s + 0.1) 1.0);
    destruct (Rle_dec 1 (Ship.throttle s + 0.1)); cbn [Ship.throttle]; lra.
Qed.

Lemma decrease_throttle_throttle (s : Ship.t) :
  Ship.throttle (Ship.decrease_throttle s) = Rmax 0 (Ship.throttle s - 0.1).
Proof.
  unfold Ship.decrease_throttle. cbv zeta.
  unfold Ship.set_throttle. cbn [Ship.throttle].
  unfold Rmax. destruct (Rlt_dec (Ship.throttle s - 0.1) 0.0);
    destruct (Rle_dec 0 (Ship.throttle s - 0.1)); cbn [Ship.throttle]; lra.
Qed.

Lemma increase_throttle_iter (n : nat) (s : Ship.t) :
  Ship.throttle s = 0 -> Ship.fuel s <> 0 ->
  Ship.fuel (Nat.iter n Ship.increase_throttle s) = Ship.fuel s
  /\ Ship.throttle (Nat.iter n Ship.increase_throttle s) = Rmin 1 (INR n * 0.1).
Proof.
  intros Hth Hf. induction n as [| n [IHf IHt]].
  - cbn [Nat.iter nat_rect INR]. split; [reflexivity |]. rewrite Hth.
    unfold Rmin. destruct (Rle_dec 1 (0 * 0.1)); lra.
  - change (Nat.iter (S n) Ship.increase_throttle s)
      with (Ship.increase_throttle (Nat.iter n Ship.increase_throttle s)).
    rewrite increase_throttle_fuel. split; [assumption |].
    rewrite increase_throttle_throttle by (rewrite IHf; exact Hf). rewrite IHt, S_INR.
    pose proof (pos_INR n).
    unfold Rmin.
    destruct (Rle_dec 1 (INR n * 0.1));
      destruct (Rle_dec 1 ((INR n + 1) * 0.1));
      destruct (Rle_dec 1 (1 + 0.1));
      destruct (Rle_dec 1 (INR n * 0.1 + 0.1)); lra.
Qed.

(** C6. From throttle 0, with fuel in the tank, each call of
    [increase_throttle] adds 0.1 and clamps at 1: after n calls one after
    the other the throttle is min(1, n * 0.1), so it is exactly 1 after 20
    of them and at most 1 after each; in general, with fuel, one call takes
    the throttle to min(1, throttle + 0.1).  Every [decrease_throttle]
    takes it to max(0, throttle - 0.1), which is 0 or above. *)
Theorem throttle_clamps (s : Ship.t)
    (Hth : Ship.throttle s = 0) (Hfuel : Ship.fuel s > 0) :
  Ship.throttle (Nat.iter 20 Ship.increase_throttle s) = 1
  /\ (forall n, Ship.throttle (Nat.iter n Ship.increase_throttle s) <= 1
                /\ Ship.fuel (Nat.iter n Ship.increase_throttle s) > 0)
  /\ (forall s', 0 <= Ship.throttle (Ship.decrease_throttle s'))
  /\ (forall n, Ship.throttle (Nat.iter n Ship.increase_throttle s)
                = Rmin 1 (INR n * 0.1))
  /\ (forall s', Ship.fuel s' <> 0 ->
                 Ship.throttle (Ship.increase_throttle s')
                 = Rmin 1 (Ship.throttle s' + 0.1))
  /\ (forall s', Ship.throttle (Ship.decrease_throttle s')
                 = Rmax 0 (Ship.throttle s' - 0.1)).
Proof.
  assert (Hf : Ship.fuel s <> 0) by lra.
  split; [| split; [| split; [| split; [| split]]]].
  - destruct (increase_throttle_iter 20 s Hth Hf) as [_ ->].
    replace (INR 20) with 20 by (cbn [INR]; lra).
    unfold Rmin. destruct (Rle_dec 1 (20 * 0.1)); lra.
  - intros n. destruct (increase_throttle_iter n s Hth Hf) as [-> ->].
    split; [apply Rmin_l | assumption].
  - intros s'. rewrite decrease_throttle_throttle. apply Rmax_l.
  - intros n. now destruct (increase_throttle_iter n s Hth Hf) as [_ ->].
  - intros s' Hs'. now apply increase_throttle_throttle.
  - intros s'. apply decrease_throttle_throttle.
Qed.

Lemma throttle_clamps_witness :
  Ship.throttle (Nat.iter 20 Ship.increase_throttle Ship.init) = 1.
Proof.
  assert (Hth : Ship.throttle Ship.init = 0) by reflexivity.
  assert (Hfuel : Ship.fuel Ship.init > 0) by (cbn; lra).
  exact (proj1 (throttle_clamps Ship.init Hth Hfuel)).
Defined.

(** ** Ship: division *)

(** C9. With fuel >= 0 the mass is at least EMPTY_MASS = 5000 > 0; with
    dt >= 0 as well, [update] returns, the fuel it leaves is >= 0, and the
    divisor of the thrust computation, the mass after the deduction, is at
    least EMPTY_MASS, so that the division is defined. *)
Theorem update_never_divides_by_zero
    (dt now : R) (s : Ship.t) (g : Spark.globals)
    (Hfuel : 0 <= Ship.fuel s) (Hdt : 0 <= dt) :
  EMPTY_MASS = 5000
  /\ 0 < EMPTY_MASS <= Ship.mass s
  /\ exists s' g',
       Ship.update dt now s g = Some (s', g')
       /\ 0 <= Ship.fuel s'
       /\ EMPTY_MASS <= Ship.mass s'
       /\ py_div (fuel_burned dt s * EXHAUST_VELOCITY) (Ship.mass s')
          = Some (fuel_burned dt s * EXHAUST_VELOCITY / Ship.mass s').
Proof.
  split; [reflexivity |]. split; [unfold Ship.mass, EMPTY_MASS; lra |].
  destruct (update_fuel_bounds dt now s g Hdt Hfuel) as [s' [g' [Hupd Hb]]].
  exists s', g'. split; [assumption |]. split; [lra |].
  split; [unfold Ship.mass; lra |].
  apply py_div_nonzero. unfold Ship.mass, EMPTY_MASS. lra.
Qed.

Lemma update_never_divides_by_zero_witness :
  0 < EMPTY_MASS <= Ship.mass ship_last_drop.
Proof.
  assert (Hfuel : 0 <= Ship.fuel ship_last_drop) by (cbn; lra).
  assert (Hdt : 0 <= 1) by lra.
  exact (proj1 (proj2 (update_never_divides_by_zero
                         1 0 ship_last_drop two_sparks Hfuel Hdt))).
Defined.

(** [update] returns whatever the state and the time step. *)
Lemma update_total (dt now : R) (s : Ship.t) (g : Spark.globals) :
  exists s' g', Ship.update dt now s g = Some (s', g').
Proof.
  destruct (update_fuel_throttle dt now s g) as [s' [g' [Hupd _]]]. eauto.
Qed.

(** C10. With the throttle open, [update] returns and the velocity it
    leaves is the old one plus gravity plus a thrust vector along
    orientation + pi/2 whose magnitude is
    fuel_burned * EXHAUST_VELOCITY / (EMPTY_MASS + fuel_after), where
    fuel_after is the fuel field after the call: fuel - fuel_burned. *)
Theorem thrust_divides_by_mass_after_burn
    (dt now : R) (s : Ship.t) (g : Spark.globals)
    (Hth : Ship.throttle s > 0) :
  exists s' g' v1,
    Ship.update dt now s g = Some (s', g')
    /\ Ship.fuel s' = Ship.fuel s - fuel_burned dt s
    /\ Vector.add (Ship.velocity s) (gravity dt) = Some v1
    /\ Vector.add v1
         (Vector.mk (Ship.orientation s + HALF_PI)
            (fuel_burned dt s * EXHAUST_VELOCITY / (EMPTY_MASS + Ship.fuel s')))
       = Some (Ship.velocity s').
Proof.
  destruct (update_thrusting dt now s g Hth) as [v1 [v2 [Hv1 [Hv2 Hupd]]]].
  eexists. eexists. exists v1. split; [exact Hupd |].
  match goal with |- context [Ship.turn dt ?s2] =>
    destruct (turn_frame dt s2) as [_ [Hv [_ [_ Hf]]]]; rewrite Hv, Hf
  end.
  cbn [Ship.fuel Ship.velocity]. now repeat split.
Qed.

Lemma thrust_divides_by_mass_after_burn_witness :
  exists s' g' v1,
    Ship.update 1 0 ship_last_drop two_sparks = Some (s', g')
    /\ Ship.fuel s' = Ship.fuel ship_last_drop - fuel_burned 1 ship_last_drop
    /\ Vector.add (Ship.velocity ship_last_drop) (gravity 1) = Some v1
    /\ Vector.add v1
         (Vector.mk (Ship.orientation ship_last_drop + HALF_PI)
            (fuel_burned 1 ship_last_drop * EXHAUST_VELOCITY
             / (EMPTY_MASS + Ship.fuel s')))
       = Some (Ship.velocity s').
Proof.
  assert (Hth : Ship.throttle ship_last_drop > 0) by (cbn; lra).
  exact (thrust_divides_by_mass_after_burn 1 0 ship_last_drop two_sparks Hth).
Defined.

(** ** Ship: the two scenarios *)

Lemma gravity_components (dt : R) :
  Vector.horizontal_component (gravity dt) = 0
  /\ Vector.vertical_component (gravity dt) = - (G * dt).
Proof.
  unfold gravity, Vector.horizontal_component, Vector.vertical_component, HALF_PI.
  cbn [Vector.direction Vector.magnitude].
  replace (PI / 2.0) with (PI / 2) by lra.
  rewrite cos_neg, sin_neg, cos_PI2, sin_PI2. split; ring.
Qed.

Lemma init_plus_gravity (dt : R) :
  Vector.add (Ship.velocity Ship.init) (gravity dt)
  = Some (Vector.mk (atan2 (- (G * dt)) 20) (hypot 20 (- (G * dt)))).
Proof.
  rewrite Vector_add_eq. unfold cartesian_sum. cbn [fst snd].
  destruct (gravity_components dt) as [-> ->].
  unfold Vector.horizontal_component, Vector.vertical_component.
  cbn [Ship.velocity Ship.init Vector.direction Vector.magnitude].
  rewrite cos_0, sin_0.
  replace (20 * 1 + 0) with 20 by ring.
  replace (20 * 0 + - (G * dt)) with (- (G * dt)) by ring.
  reflexivity.
Qed.

(** C8. The new ship (position (0, 768), velocity of direction 0 and
    magnitude 20, fuel 5000, throttle 0, rotation 0), updated with
    dt = 1/30: the call returns the same ship but for position and velocity,
    and the same sparks; the position is (20/30, 768), about 0.667 to the
    right; the velocity is the polar form, by atan2 and the hypotenuse, of
    the components (20, -G/30): 20 across and G * dt = 1/3 downward. *)
Theorem idle_tick (now : R) (g : Spark.globals) :
  exists v,
    Ship.update (1 / 30) now Ship.init g
    = Some (Ship.set_velocity
              (Ship.set_position Ship.init (0 + 20 * (1 / 30), 768)) v, g)
    /\ Ship.position Ship.init = (0, 768)
    /\ Ship.velocity Ship.init = Vector.mk 0 20
    /\ Ship.fuel Ship.init = 5000 /\ Ship.throttle Ship.init = 0
    /\ Ship.rotation Ship.init = 0%Z
    /\ 0.666 < 20 * (1 / 30) < 0.667
    /\ v = Vector.mk (atan2 (- (G * (1 / 30))) 20) (hypot 20 (- (G * (1 / 30))))
    /\ Vector.horizontal_component v = 20
    /\ Vector.vertical_component v = - (G * (1 / 30))
    /\ 0.333 < G * (1 / 30) < 0.334.
Proof.
  exists (Vector.mk (atan2 (- (G * (1 / 30))) 20) (hypot 20 (- (G * (1 / 30))))).
  assert (Hidle : ~ Ship.throttle Ship.init > 0) by (cbn; lra).
  destruct (update_idle (1 / 30) now Ship.init g Hidle) as [v1 [Hv1 Hupd]].
  rewrite init_plus_gravity in Hv1. injection Hv1 as <-.
  split.
  - rewrite Hupd, turn_still by reflexivity. do 2 f_equal.
    unfold Ship.set_velocity, Ship.set_position, moved.
    cbn [Ship.position Ship.velocity Ship.orientation Ship.throttle Ship.rotation
         Ship.fuel Ship.image_ Ship.sprite_image Ship.init fst snd].
    unfold Vector.horizontal_component, Vector.vertical_component, MAX_Y.
    cbn [Vector.direction Vector.magnitude]. rewrite cos_0, sin_0.
    f_equal. f_equal; lra.
  - repeat (split; [first [reflexivity | unfold G; lra] |]).
    split; [unfold Vector.horizontal_component | split; [unfold Vector.vertical_component |]];
      cbn [Vector.direction Vector.magnitude].
    + apply polar_horizontal.
    + apply polar_vertical.
    + unfold G. lra.
Qed.

(** C4. A ship with fuel 5000 and throttle 1.0, updated with dt = 1/30:
    fuel_burned is 1.0 * 600 * (1/30) = 20, the fuel left is 4980, and
    int(20 * 0.5) = 10 sparks are created, which the call puts in front of
    the ones there were. *)
Theorem full_throttle_tick (now : R) (s : Ship.t) (g : Spark.globals)
    (Hfuel : Ship.fuel s = 5000) (Hth : Ship.throttle s = 1.0) :
  Ship.throttle s * THROTTLE_MAX * (1 / 30) = 20
  /\ fuel_burned (1 / 30) s = 20
  /\ py_int (fuel_burned (1 / 30) s * SPARKS_PER_KG) = 10%Z
  /\ exists s' g' new,
       Ship.update (1 / 30) now s g = Some (s', g')
       /\ Ship.fuel s' = 4980
       /\ Spark.sparks g' = new ++ Spark.sparks g
       /\ length new = 10%nat
       /\ Forall (fun sp => Spark.start_time sp = now
                            /\ Spark.position sp = Ship.position s') new.
Proof.
  assert (Hfb0 : Ship.throttle s * THROTTLE_MAX * (1 / 30) = 20)
    by (rewrite Hth; unfold THROTTLE_MAX; lra).
  assert (Hfb : fuel_burned (1 / 30) s = 20).
  { unfold fuel_burned. rewrite Hfb0, Hfuel. destruct (Rgt_dec 20 5000); lra. }
  assert (Hint : py_int (fuel_burned (1 / 30) s * SPARKS_PER_KG) = 10%Z).
  { rewrite Hfb. replace (20 * SPARKS_PER_KG) with (IZR 10)
      by (unfold SPARKS_PER_KG; lra).
    apply py_int_IZR. }
  split; [assumption |]. split; [assumption |]. split; [assumption |].
  assert (Hopen : Ship.throttle s > 0) by lra.
  destruct (update_fuel_throttle (1 / 30) now s g)
    as [s' [g' [Hupd [_ [Hpos [Hon _]]]]]].
  destruct (Hon Hopen) as [Hf [_ Hg]].
  rewrite Hint in Hg. change (Z.to_nat 10) with 10%nat in Hg.
  destruct (spawn_sparks 10 (moved (1 / 30) s) (Ship.orientation s - HALF_PI) now g)
    as [new [Hnew [Hlen Hall]]].
  exists s', g', new. split; [assumption |]. split; [lra |].
  rewrite Hg, Hpos. now repeat split.
Qed.

Lemma full_throttle_tick_witness :
  fuel_burned (1 / 30) ship_full_throttle = 20.
Proof.
  assert (Hfuel : Ship.fuel ship_full_throttle = 5000) by reflexivity.
  assert (Hth : Ship.throttle ship_full_throttle = 1.0) by reflexivity.
  exact (proj1 (proj2 (full_throttle_tick 0 ship_full_throttle two_sparks Hfuel Hth))).
Defined.

Lemma full_throttle_burn :
  fuel_burned (1 / 30) ship_full_throttle = 20.
Proof.
  unfold fuel_burned, THROTTLE_MAX.
  cbn [Ship.fuel Ship.throttle ship_full_throttle Ship.set_throttle Ship.init].
  destruct (Rgt_dec (1.0 * 600 * (1 / 30)) 5000); lra.
Qed.

(** For that same step the divisor after the burn, 5000 + 4980, is not the
    one before it, 5000 + 5000: the thrust is larger than the mass before
    the burn would give. *)
Lemma thrust_differs_from_preburn :
  fuel_burned (1 / 30) ship_full_throttle * EXHAUST_VELOCITY
  / (EMPTY_MASS + (Ship.fuel ship_full_throttle
                   - fuel_burned (1 / 30) ship_full_throttle))
  > fuel_burned (1 / 30) ship_full_throttle * EXHAUST_VELOCITY
    / (EMPTY_MASS + Ship.fuel ship_full_throttle).
Proof.
  rewrite full_throttle_burn.
  unfold EXHAUST_VELOCITY, EMPTY_MASS. cbn [Ship.fuel ship_full_throttle Ship.set_throttle Ship.init].
  lra.
Qed.

(** ** Spark: creation at the front *)

Lemma stamps_app (os1 os2 : list spark_op) :
  stamps (os1 ++ os2) = stamps os1 ++ stamps os2.
Proof.
  induction os1 as [| [p d t | dt now] os1 IH]; cbn [app stamps]; congruence.
Qed.

Lemma nondecreasing_from_prefix (ts us : list R) :
  forall t, nondecreasing_from t (ts ++ us) -> nondecreasing_from t ts.
Proof.
  induction ts as [| u ts IH]; intros t H; cbn [app nondecreasing_from] in *.
  - exact I.
  - destruct H as [Htu H]. split; [assumption | now apply IH].
Qed.

Lemma spark_run_app (os1 os2 : list spark_op) :
  forall g, spark_run (os1 ++ os2) g = (g1 <- spark_run os1 g ;; spark_run os2 g1).
Proof.
  induction os1 as [| o os1 IH]; intros g; cbn [app spark_run].
  - reflexivity.
  - destruct (spark_step o g) as [g1 |]; cbn [bind]; [apply IH | reflexivity].
Qed.

(** C7. A creation puts the new spark, stamped with its start time, at
    index 0 and leaves the others behind it in their order; so from an
    age-ordered list, along every run of creations and culls whose creation
    timestamps never go down (and start no earlier than the sparks already
    there), the list is newest-first at every point of the run: after any
    prefix [os1] and after the whole of it.  The sparks [Ship.update] adds
    are such a run of creations, all stamped with its [now]. *)
Theorem creation_keeps_newest_first
    (p : R * R) (d now : R) (g : Spark.globals)
    (os1 os2 : list spark_op) (g0 : Spark.globals) (t : R)
    (Hsorted : Spark.newest_first (Spark.sparks g0))
    (Hbound : started_by t (Spark.sparks g0))
    (Hstamps : nondecreasing_from t (stamps (os1 ++ os2))) :
  (exists sp,
      Spark.sparks (Spark.init p d now g) = sp :: Spark.sparks g
      /\ Spark.position sp = p /\ Spark.start_time sp = now /\ Spark.age sp = 0)
  /\ (exists g1 g2,
      spark_run os1 g0 = Some g1 /\ Spark.newest_first (Spark.sparks g1)
      /\ spark_run os2 g1 = Some g2 /\ Spark.newest_first (Spark.sparks g2))
  /\ (forall dt s, exists s' g' n,
      Ship.update dt now s g = Some (s', g')
      /\ spark_run
           (repeat (Create (Ship.position s') (Ship.orientation s - HALF_PI) now) n) g
         = Some g').
Proof.
  split; [apply init_front |]. split.
  - destruct (spark_run_order (os1 ++ os2) g0 t Hsorted Hbound Hstamps)
      as [g2 [Hrun2 Hs2]].
    rewrite stamps_app in Hstamps. apply nondecreasing_from_prefix in Hstamps.
    destruct (spark_run_order os1 g0 t Hsorted Hbound Hstamps) as [g1 [Hrun1 Hs1]].
    exists g1, g2. rewrite spark_run_app, Hrun1 in Hrun2. now repeat split.
  - intros dt s. destruct (update_total dt now s g) as [s' [g' Hupd]].
    destruct (update_creates dt now s s' g g' Hupd) as [n Hn].
    exists s', g', n. now split.
Qed.

Lemma creation_keeps_newest_first_witness :
  exists g1 g2,
    spark_run short_run two_sparks = Some g1
    /\ Spark.newest_first (Spark.sparks g1)
    /\ spark_run [] g1 = Some g2 /\ Spark.newest_first (Spark.sparks g2).
Proof.
  exact (proj1 (proj2 (creation_keeps_newest_first
                         (0, 0) 0 2 two_sparks short_run [] two_sparks 1
                         (proj1 two_sparks_ordered) (proj2 two_sparks_ordered)
                         short_run_stamps))).
Defined.

(** ** The loop of main *)

Lemma spawn_order (n : nat) (p : R * R) (d now : R) :
  forall (g : Spark.globals) (t : R),
    Spark.newest_first (Spark.sparks g) -> started_by t (Spark.sparks g) ->
    t <= now ->
    Spark.newest_first (Spark.sparks (Ship.spawn n p d now g))
    /\ started_by now (Spark.sparks (Ship.spawn n p d now g)).
Proof.
  induction n as [| n IH]; intros g t Hs Hb Ht; cbn [Ship.spawn].
  - split; [assumption | now apply (started_by_le t)].
  - destruct (spark_step_order (Create p d now) g t now Hs Hb Ht)
      as [g1 [Hg1 [Hs1 Hb1]]]; [now intros ? ? ? [= _ _ <-] |].
    cbn [spark_step] in Hg1. injection Hg1 as <-.
    apply (IH _ now Hs1 Hb1). lra.
Qed.

Lemma main_run_newest_first (cs : list Main.call) :
  forall (st : Main.state) (t : R),
    Spark.newest_first (Spark.sparks (Main.globals st)) ->
    started_by t (Spark.sparks (Main.globals st)) ->
    nondecreasing_from t (update_stamps cs) ->
    exists st',
      Main.run cs st = Some st'
      /\ Spark.newest_first (Spark.sparks (Main.globals st')).
Proof.
  induction cs as [| c cs IH]; intros st t Hs Hb Hts.
  - exists st. now split.
  - destruct c as [dt now | dt now | | | r];
      cbn [update_stamps nondecreasing_from Main.run Main.step] in *.
    + destruct Hts as [Ht Hts].
      destruct (update_fuel_throttle dt now (Main.ship st) (Main.globals st))
        as [s' [g' [-> [_ [_ [Hon Hoff]]]]]]. cbn [bind].
      apply (IH _ now); [| | assumption]; cbn [Main.globals];
        destruct (Rgt_dec (Ship.throttle (Main.ship st)) 0) as [Hth | Hth].
      * destruct (Hon Hth) as [_ [_ ->]]. now apply (spawn_order _ _ _ _ _ t).
      * destruct (Hoff Hth) as [_ [_ ->]]. assumption.
      * destruct (Hon Hth) as [_ [_ ->]]. now apply (spawn_order _ _ _ _ _ t).
      * destruct (Hoff Hth) as [_ [_ ->]]. now apply (started_by_le t).
    + destruct (spark_step_order (Cull dt now) (Main.globals st) t t Hs Hb
                  (Rle_refl t)) as [g1 [Hg1 [Hs1 Hb1]]]; [intros; discriminate |].
      cbn [spark_step] in Hg1. rewrite Hg1. cbn [bind].
      now apply (IH _ t).
    + now apply (IH _ t).
    + now apply (IH _ t).
    + now apply (IH _ t).
Qed.

Lemma frame_calls_stamps (fs : list Main.frame) :
  update_stamps (flat_map Main.frame_calls fs) = map Main.now_ship fs.
Proof.
  assert (Hquiet : forall bs cs,
             update_stamps (flat_map Main.button_calls bs ++ cs) = update_stamps cs).
  { induction bs as [| [| |] bs IHb]; intros cs; cbn; auto. }
  induction fs as [| f fs IH]; [reflexivity |].
  cbn [flat_map map]. unfold Main.frame_calls at 1.
  cbn [app update_stamps]. rewrite <- app_assoc, Hquiet.
  cbn [app update_stamps]. now rewrite IH.
Qed.

Lemma frame_calls_forward (fs : list Main.frame) :
  Forall (fun f => 0 <= Main.delta_t f) fs ->
  Forall forward (flat_map Main.frame_calls fs).
Proof.
  induction 1 as [| f fs Hf _ IH]; [constructor |].
  cbn [flat_map]. apply Forall_app. split; [| assumption].
  unfold Main.frame_calls. constructor; [exact Hf |]. constructor; [exact I |].
  apply Forall_app. split; [| now repeat constructor].
  apply Forall_forall. intros c Hc. apply in_flat_map in Hc as [b [_ Hb]].
  destruct b; cbn in Hb; intuition (subst; exact I).
Qed.

(** Round the loop any number of times, with time steps of at least zero and
    a clock whose first reading of each frame never goes back: the loop body
    never raises, the fuel stays between 0 and the 5000 kg loaded, and the
    sparks stay newest-first. *)
Lemma main_loop_invariants (fs : list Main.frame) (seed : Random.state) (t : R) :
  Forall (fun f => 0 <= Main.delta_t f) fs ->
  nondecreasing_from t (map Main.now_ship fs) ->
  exists st,
    Main.main_loop fs seed = Some st
    /\ 0 <= Ship.fuel (Main.ship st) <= 5000
    /\ Spark.newest_first (Spark.sparks (Main.globals st)).
Proof.
  intros Hdt Hclock. unfold Main.main_loop.
  destruct (run_fuel (flat_map Main.frame_calls fs) (Main.start seed))
    as [st [Hrun Hfuel]]; [now apply frame_calls_forward | cbn; lra |].
  destruct (main_run_newest_first (flat_map Main.frame_calls fs) (Main.start seed) t)
    as [st' [Hrun' Hs]]; [constructor | constructor | now rewrite frame_calls_stamps |].
  rewrite Hrun in Hrun'. injection Hrun' as <-.
  exists st. now repeat split.
Qed.

(** ** The scenarios in binary64

    Rounding does not change what the statements above say at their
    concrete inputs. *)

Lemma binary64_twenty_increases :
  Nat.iter 20 (Binary64.increase_throttle 5000) 0%float = 1%float
  /\ Nat.iter 10 (Binary64.increase_throttle 5000) 0%float
     = 0.99999999999999989%float
  /\ Nat.iter 11 (Binary64.increase_throttle 5000) 0%float = 1%float.
Proof. repeat split; vm_compute; reflexivity. Qed.

Lemma binary64_decrease_floor :
  Binary64.decrease_throttle 0 = 0%float
  /\ Nat.iter 11 Binary64.decrease_throttle 1%float = 0%float.
Proof. split; vm_compute; reflexivity. Qed.

Lemma binary64_full_throttle_tick :
  Binary64.burn (1 / 30) 1 5000 = (20, 4980, 1)%float
  /\ (20 * 0.5)%float = 10%float.
Proof. split; vm_compute; reflexivity. Qed.

Lemma binary64_exact_burn :
  Binary64.burn 1 1 600 = (600, 0, 1)%float.
Proof. vm_compute. reflexivity. Qed.

(** * Further properties *)

(** ** int() and scale *)

Lemma Int_part_bounds (x : R) : IZR (Int_part x) <= x < IZR (Int_part x) + 1.
Proof. destruct (base_Int_part x). lra. Qed.

Lemma Int_part_le (x y : R) : x <= y -> (Int_part x <= Int_part y)%Z.
Proof.
  intros Hxy. pose proof (Int_part_bounds x). pose proof (Int_part_bounds y).
  assert (H1 : IZR (Int_part x) < IZR (Int_part y + 1)) by (rewrite plus_IZR; lra).
  apply lt_IZR in H1. lia.
Qed.

Lemma Int_part_nonneg (x : R) : 0 <= x -> (0 <= Int_part x)%Z.
Proof.
  intros Hx. replace 0%Z with (Int_part 0).
  - now apply Int_part_le.
  - symmetry. apply (Int_part_spec 0 0). lra.
Qed.

(** [int] rounds toward zero: it is the floor of a number that is at least
    0 and the ceiling of one that is below. *)
Lemma py_int_floor (x : R) : 0 <= x -> IZR (py_int x) <= x < IZR (py_int x) + 1.
Proof.
  intros Hx. unfold py_int. destruct (Rle_dec 0 x); [apply Int_part_bounds | contradiction].
Qed.

Lemma py_int_ceil (x : R) : x < 0 -> x <= IZR (py_int x) < x + 1.
Proof.
  intros Hx. unfold py_int. destruct (Rle_dec 0 x); [lra |].
  rewrite opp_IZR. pose proof (Int_part_bounds (- x)). lra.
Qed.

Lemma py_int_le (x y : R) : x <= y -> (py_int x <= py_int y)%Z.
Proof.
  intros Hxy. destruct (Rle_dec 0 x) as [Hx | Hx].
  - unfold py_int. destruct (Rle_dec 0 x); [| contradiction].
    destruct (Rle_dec 0 y); [now apply Int_part_le | lra].
  - destruct (Rle_dec 0 y) as [Hy | Hy].
    + pose proof (py_int_ceil x ltac:(lra)). pose proof (py_int_floor y Hy).
      assert (H1 : IZR (py_int x) < IZR 1) by lra. apply lt_IZR in H1.
      assert (H2 : IZR (-1) < IZR (py_int y)) by lra. apply lt_IZR in H2. lia.
    + unfold py_int. destruct (Rle_dec 0 x); [contradiction |].
      destruct (Rle_dec 0 y); [contradiction |].
      assert (Hle : (Int_part (- y) <= Int_part (- x))%Z) by (apply Int_part_le; lra).
      lia.
Qed.

Lemma py_int_between (a b : Z) (x : R) :
  IZR a <= x <= IZR b -> (a <= py_int x <= b)%Z.
Proof.
  intros [Ha Hb]. apply py_int_le in Ha, Hb. rewrite py_int_IZR in Ha, Hb. lia.
Qed.

(** For n >= 0, [int(v) <= n] exactly when [v < n + 1]; for n <= 0,
    [n <= int(v)] exactly when [n - 1 < v]. *)
Lemma py_int_upper (v : R) (n : Z) :
  (0 <= n)%Z -> ((py_int v <= n)%Z <-> v < IZR n + 1).
Proof.
  intros Hn. pose proof (IZR_le _ _ Hn) as Hn'. split.
  - intros Hle. apply IZR_le in Hle. destruct (Rle_dec 0 v) as [Hv | Hv].
    + pose proof (py_int_floor v Hv). lra.
    + lra.
  - intros Hlt. destruct (Rle_dec 0 v) as [Hv | Hv].
    + pose proof (py_int_floor v Hv).
      assert (H1 : IZR (py_int v) < IZR (n + 1)) by (rewrite plus_IZR; lra).
      apply lt_IZR in H1. lia.
    + pose proof (py_int_ceil v ltac:(lra)).
      assert (H1 : IZR (py_int v) < IZR 1) by lra.
      apply lt_IZR in H1. lia.
Qed.

Lemma py_int_lower (v : R) (n : Z) :
  (n <= 0)%Z -> ((n <= py_int v)%Z <-> IZR n - 1 < v).
Proof.
  intros Hn. pose proof (IZR_le _ _ Hn) as Hn'. split.
  - intros Hle. apply IZR_le in Hle. destruct (Rle_dec 0 v) as [Hv | Hv].
    + lra.
    + pose proof (py_int_ceil v ltac:(lra)). lra.
  - intros Hlt. destruct (Rle_dec 0 v) as [Hv | Hv].
    + pose proof (py_int_floor v Hv).
      assert (H1 : IZR (-1) < IZR (py_int v)) by lra.
      apply lt_IZR in H1. lia.
    + pose proof (py_int_ceil v ltac:(lra)).
      assert (H1 : IZR (n - 1) < IZR (py_int v)) by (rewrite minus_IZR; lra).
      apply lt_IZR in H1. lia.
Qed.

Lemma scale_range (start end_ : Z) (s : R) :
  0 <= s <= 1 ->
  (Z.min start end_ <= scale (IZR start) (IZR end_) s <= Z.max start end_)%Z.
Proof.
  intros Hs. unfold scale. apply py_int_between.
  destruct (Z.le_ge_cases start end_) as [Hle | Hle].
  - rewrite Z.min_l, Z.max_r by assumption. apply IZR_le in Hle. nra.
  - rewrite Z.min_r, Z.max_l by assumption. apply IZR_le in Hle. nra.
Qed.

Lemma scale_ends (start end_ : Z) :
  scale (IZR start) (IZR end_) 0 = start /\ scale (IZR start) (IZR end_) 1 = end_.
Proof.
  unfold scale. split.
  - replace (0 * (IZR end_ - IZR start) + IZR start) with (IZR start) by ring.
    apply py_int_IZR.
  - replace (1 * (IZR end_ - IZR start) + IZR start) with (IZR end_) by ring.
    apply py_int_IZR.
Qed.

(** X1. With whole numbers for [start] and [end] and s between 0 and 1,
    [scale] lies between the two (whichever is larger), is [start] at
    s = 0 and [end] at s = 1. *)
Theorem scale_between_endpoints (start end_ : Z) (s : R) (Hs : 0 <= s <= 1) :
  (Z.min start end_ <= scale (IZR start) (IZR end_) s <= Z.max start end_)%Z
  /\ scale (IZR start) (IZR end_) 0 = start
  /\ scale (IZR start) (IZR end_) 1 = end_.
Proof.
  split.
  - now apply scale_range.
  - apply scale_ends.
Qed.

Lemma scale_between_endpoints_witness :
  (Z.min 255 80 <= scale (IZR 255) (IZR 80) (1 / 2) <= Z.max 255 80)%Z.
Proof.
  assert (Hs : 0 <= 1 / 2 <= 1) by lra.
  exact (proj1 (scale_between_endpoints 255 80 (1 / 2) Hs)).
Defined.

(** X2. [scale] goes the way of its end points: it never decreases in s
    when start <= end and never increases when end <= start. *)
Theorem scale_monotone (start end_ s1 s2 : R) (Hs : s1 <= s2) :
  (start <= end_ -> (scale start end_ s1 <= scale start end_ s2)%Z)
  /\ (end_ <= start -> (scale start end_ s2 <= scale start end_ s1)%Z).
Proof.
  unfold scale. split; intros Hse; apply py_int_le; nra.
Qed.

Lemma scale_monotone_witness :
  (scale 1 8 (1 / 4) <= scale 1 8 (3 / 4))%Z.
Proof.
  assert (Hs : 1 / 4 <= 3 / 4) by lra.
  assert (Hse : 1 <= 8) by lra.
  exact (proj1 (scale_monotone 1 8 (1 / 4) (3 / 4) Hs) Hse).
Defined.

(** ** Spark.draw *)

Lemma pygame_Color_spec (r g b a : Z) :
  (pygame_Color r g b a = Some (r, g, b, a)
   /\ (0 <= r <= 255 /\ 0 <= g <= 255 /\ 0 <= b <= 255 /\ 0 <= a <= 255)%Z)
  \/ (pygame_Color r g b a = None
      /\ ~ (0 <= r <= 255 /\ 0 <= g <= 255 /\ 0 <= b <= 255 /\ 0 <= a <= 255)%Z).
Proof.
  unfold pygame_Color.
  destruct (Z.leb_spec 0 r); destruct (Z.leb_spec r 255);
    destruct (Z.leb_spec 0 g); destruct (Z.leb_spec g 255);
    destruct (Z.leb_spec 0 b); destruct (Z.leb_spec b 255);
    destruct (Z.leb_spec 0 a); destruct (Z.leb_spec a 255);
    cbn [andb]; first [left; split; [reflexivity | lia] | right; split; [reflexivity | lia]].
Qed.

(** The channels [draw] computes, as functions of the age. *)
Lemma draw_unfold (sp : Spark.t) :
  Spark.draw sp =
  (color <- pygame_Color (scale 255 80 (Spark.age sp)) (scale 255 40 (Spark.age sp))
                         (scale 255 20 (Spark.age sp)) (scale 255 20 (Spark.age sp)) ;;
   Some (Spark.mkCircle color
           (IZR (py_int (fst (Spark.position sp))),
            MAX_Y - IZR (py_int (snd (Spark.position sp))))
           (scale 1 8 (Spark.age sp)))).
Proof. reflexivity. Qed.

Lemma channel_in_byte (end_ : Z) (a : R) :
  (0 <= end_ <= 255)%Z ->
  ((0 <= scale 255 (IZR end_) a <= 255)%Z
   <-> -1 < a * (IZR end_ - 255) + 255 < 256).
Proof.
  intros He. unfold scale.
  pose proof (py_int_upper (a * (IZR end_ - 255) + 255) 255 ltac:(lia)) as Hu.
  pose proof (py_int_lower (a * (IZR end_ - 255) + 255) 0 ltac:(lia)) as Hl.
  replace (IZR 255 + 1) with 256 in Hu by lra.
  replace (IZR 0 - 1) with (-1) in Hl by lra.
  tauto.
Qed.

(** X3. [draw] succeeds exactly when the age is strictly between -1/235
    and 256/235: outside, the blue and alpha channels leave 0..255 and
    [pygame.Color] raises. *)
Theorem draw_defined_iff (sp : Spark.t) :
  (exists c, Spark.draw sp = Some c)
  <-> - (1 / 235) < Spark.age sp < 256 / 235.
Proof.
  rewrite draw_unfold.
  pose proof (channel_in_byte 80 (Spark.age sp) ltac:(lia)) as Hr.
  pose proof (channel_in_byte 40 (Spark.age sp) ltac:(lia)) as Hg.
  pose proof (channel_in_byte 20 (Spark.age sp) ltac:(lia)) as Hb.
  destruct (pygame_Color_spec (scale 255 80 (Spark.age sp)) (scale 255 40 (Spark.age sp))
              (scale 255 20 (Spark.age sp)) (scale 255 20 (Spark.age sp)))
    as [[-> Hin] | [-> Hout]]; cbn [bind].
  - split; [intros _ | eauto].
    destruct Hin as [_ [_ [Hin _]]]. apply Hb in Hin. lra.
  - split; [intros [c Hc]; discriminate |].
    intros Hage. exfalso. apply Hout.
    repeat split; first [apply Hr | apply Hg | apply Hb]; lra.
Qed.

Lemma draw_channels (sp : Spark.t) :
  0 <= Spark.age sp <= 1 ->
  Spark.draw sp
  = Some (Spark.mkCircle
            (scale 255 80 (Spark.age sp), scale 255 40 (Spark.age sp),
             scale 255 20 (Spark.age sp), scale 255 20 (Spark.age sp))
            (IZR (py_int (fst (Spark.position sp))),
             MAX_Y - IZR (py_int (snd (Spark.position sp))))
            (scale 1 8 (Spark.age sp)))
  /\ (1 <= scale 1 8 (Spark.age sp) <= 8)%Z
  /\ (80 <= scale 255 80 (Spark.age sp) <= 255)%Z
  /\ (40 <= scale 255 40 (Spark.age sp) <= 255)%Z
  /\ (20 <= scale 255 20 (Spark.age sp) <= 255)%Z.
Proof.
  intros Hage.
  pose proof (scale_range 255 80 (Spark.age sp) Hage) as Hr.
  pose proof (scale_range 255 40 (Spark.age sp) Hage) as Hg.
  pose proof (scale_range 255 20 (Spark.age sp) Hage) as Hb.
  pose proof (scale_range 1 8 (Spark.age sp) Hage) as Hrad.
  rewrite Z.min_r, Z.max_l in Hr, Hg, Hb by lia.
  rewrite Z.min_l, Z.max_r in Hrad by lia.
  split; [| now repeat split].
  rewrite draw_unfold.
  destruct (pygame_Color_spec (scale 255 80 (Spark.age sp)) (scale 255 40 (Spark.age sp))
              (scale 255 20 (Spark.age sp)) (scale 255 20 (Spark.age sp)))
    as [[-> _] | [_ Hout]]; cbn [bind]; [reflexivity |].
  exfalso. apply Hout. lia.
Qed.

(** X4. A spark whose age is between 0 and 1 is drawn: the radius is
    between 1 and 8 pixels, red between 80 and 255, green between 40 and
    255, blue and alpha between 20 and 255, and the centre is the position
    truncated to whole pixels with the vertical axis flipped
    (MAX_Y - y).  It goes from small and bright to big and dim: white,
    opaque and of radius 1 at age 0, (80, 40, 20, 20) and radius 8 at
    age 1. *)
Theorem draw_in_range (sp : Spark.t) (Hage : 0 <= Spark.age sp <= 1) :
  exists r g b a rad,
    Spark.draw sp
    = Some (Spark.mkCircle (r, g, b, a)
              (IZR (py_int (fst (Spark.position sp))),
               MAX_Y - IZR (py_int (snd (Spark.position sp))))
              rad)
    /\ (1 <= rad <= 8)%Z
    /\ (80 <= r <= 255)%Z /\ (40 <= g <= 255)%Z
    /\ (20 <= b <= 255)%Z /\ (20 <= a <= 255)%Z
    /\ (Spark.age sp = 0 ->
          (r, g, b, a) = (255, 255, 255, 255)%Z /\ rad = 1%Z)
    /\ (Spark.age sp = 1 ->
          (r, g, b, a) = (80, 40, 20, 20)%Z /\ rad = 8%Z).
Proof.
  destruct (draw_channels sp Hage) as [Hdraw [Hrad [Hr [Hg Hb]]]].
  do 5 eexists. split; [exact Hdraw |].
  repeat (split; [assumption |]).
  split; intros ->.
  - destruct (scale_ends 255 80) as [-> _]. destruct (scale_ends 255 40) as [-> _].
    destruct (scale_ends 255 20) as [-> _]. destruct (scale_ends 1 8) as [-> _].
    now split.
  - destruct (scale_ends 255 80) as [_ ->]. destruct (scale_ends 255 40) as [_ ->].
    destruct (scale_ends 255 20) as [_ ->]. destruct (scale_ends 1 8) as [_ ->].
    now split.
Qed.

Lemma draw_in_range_witness :
  exists c, Spark.draw (Spark.mk (3, 4) (Vector.mk 0 1) 0 (1 / 2)) = Some c.
Proof.
  assert (Hage : 0 <= Spark.age (Spark.mk (3, 4) (Vector.mk 0 1) 0 (1 / 2)) <= 1)
    by (cbn [Spark.age]; lra).
  destruct (draw_in_range (Spark.mk (3, 4) (Vector.mk 0 1) 0 (1 / 2)) Hage)
    as [r [g [b [a [rad [Hdraw _]]]]]].
  eexists. exact Hdraw.
Defined.

Lemma draw_defined_iff_witness :
  exists c, Spark.draw (Spark.mk (3, 4) (Vector.mk 0 1) 0 (1 / 2)) = Some c.
Proof.
  apply (proj2 (draw_defined_iff (Spark.mk (3, 4) (Vector.mk 0 1) 0 (1 / 2)))).
  cbn [Spark.age]. lra.
Defined.

(** ** Spark.update *)

Lemma Spark_update_components (sp : Spark.t) (dt : R) :
  exists sp',
    Spark.update sp dt = Some sp'
    /\ Spark.position sp'
       = (fst (Spark.position sp)
          + Vector.horizontal_component (Spark.velocity sp) * dt,
          snd (Spark.position sp)
          + Vector.vertical_component (Spark.velocity sp) * dt)
    /\ Vector.horizontal_component (Spark.velocity sp')
       = Vector.horizontal_component (Spark.velocity sp)
    /\ Vector.vertical_component (Spark.velocity sp')
       = Vector.vertical_component (Spark.velocity sp) - G * dt
    /\ 0 <= Vector.magnitude (Spark.velocity sp')
    /\ Spark.start_time sp' = Spark.start_time sp
    /\ Spark.age sp' = Spark.age sp.
Proof.
  destruct (Vector_add_total (Spark.velocity sp) (gravity dt)) as [v Hv].
  destruct (Vector_add_components _ _ _ Hv) as [Hx Hy].
  destruct (gravity_components dt) as [Hgx Hgy]. rewrite Hgx in Hx. rewrite Hgy in Hy.
  exists (Spark.mk (fst (Spark.position sp)
                    + Vector.horizontal_component (Spark.velocity sp) * dt,
                    snd (Spark.position sp)
                    + Vector.vertical_component (Spark.velocity sp) * dt)
            v (Spark.start_time sp) (Spark.age sp)).
  split.
  - unfold Spark.update. destruct (Spark.position sp) as [x y].
    unfold gravity in Hv. rewrite Hv. reflexivity.
  - cbn [Spark.position Spark.velocity Spark.start_time Spark.age].
    split; [reflexivity |]. split; [lra |]. split; [lra |].
    split; [| split; reflexivity].
    rewrite Vector_add_eq in Hv. injection Hv as <-.
    cbn [Vector.magnitude]. apply sqrt_pos.
Qed.

(** X5. [Spark.update] always returns; the spark moves by its old velocity
    times dt, keeps its horizontal speed, loses G * dt of vertical speed
    (so falls strictly faster after any dt > 0), and keeps start time and
    age; the stored magnitude is never negative. *)
Theorem Spark_update_kinematics (sp : Spark.t) (dt : R) :
  exists sp',
    Spark.update sp dt = Some sp'
    /\ Spark.position sp'
       = (fst (Spark.position sp)
          + Vector.horizontal_component (Spark.velocity sp) * dt,
          snd (Spark.position sp)
          + Vector.vertical_component (Spark.velocity sp) * dt)
    /\ Vector.horizontal_component (Spark.velocity sp')
       = Vector.horizontal_component (Spark.velocity sp)
    /\ Vector.vertical_component (Spark.velocity sp')
       = Vector.vertical_component (Spark.velocity sp) - G * dt
    /\ (0 < dt -> Vector.vertical_component (Spark.velocity sp')
                  < Vector.vertical_component (Spark.velocity sp))
    /\ 0 <= Vector.magnitude (Spark.velocity sp')
    /\ Spark.start_time sp' = Spark.start_time sp
    /\ Spark.age sp' = Spark.age sp.
Proof.
  destruct (Spark_update_components sp dt)
    as [sp' [Hupd [Hpos [Hx [Hy [Hm [Hst Hage]]]]]]].
  exists sp'. repeat (split; [assumption |]).
  split; [| now repeat split].
  intros Hdt. rewrite Hy. unfold G. lra.
Qed.

Lemma Spark_update_kinematics_witness :
  exists sp',
    Spark.update (Spark.mk (0, 0) (Vector.mk 0 1) 0 0) 1 = Some sp'
    /\ Vector.vertical_component (Spark.velocity sp')
       < Vector.vertical_component (Spark.velocity (Spark.mk (0, 0) (Vector.mk 0 1) 0 0)).
Proof.
  destruct (Spark_update_kinematics (Spark.mk (0, 0) (Vector.mk 0 1) 0 0) 1)
    as [sp' [Hupd [_ [_ [_ [Hfall _]]]]]].
  exists sp'. split; [exact Hupd |]. apply Hfall. lra.
Defined.

(** X6. A spark updated n times with the same dt follows the explicit
    Euler parabola: horizontal speed unchanged, vertical speed down by
    n * G * dt, x advanced by n * vx * dt, and
    y = y0 + n * vy * dt - G * dt^2 * n (n - 1) / 2. *)
Theorem spark_free_fall (n : nat) (dt : R) :
  forall sp, exists sp',
    fall n dt sp = Some sp'
    /\ Vector.horizontal_component (Spark.velocity sp')
       = Vector.horizontal_component (Spark.velocity sp)
    /\ Vector.vertical_component (Spark.velocity sp')
       = Vector.vertical_component (Spark.velocity sp) - INR n * G * dt
    /\ fst (Spark.position sp')
       = fst (Spark.position sp)
         + INR n * Vector.horizontal_component (Spark.velocity sp) * dt
    /\ snd (Spark.position sp')
       = snd (Spark.position sp)
         + INR n * Vector.vertical_component (Spark.velocity sp) * dt
         - G * dt * dt * (INR n * (INR n - 1) / 2).
Proof.
  induction n as [| n IH]; intros sp.
  - exists sp. cbn [fall INR]. repeat split; lra.
  - destruct (Spark_update_components sp dt)
      as [sp1 [Hupd [Hpos [Hx [Hy _]]]]].
    destruct (IH sp1) as [sp' [Hfall [Hx' [Hy' [Hpx Hpy]]]]].
    exists sp'. cbn [fall]. rewrite Hupd. cbn [bind]. split; [assumption |].
    rewrite Hx', Hy', Hpx, Hpy, Hx, Hy, Hpos, S_INR. cbn [fst snd].
    repeat split; lra.
Qed.

(** ** Vector: the polar form of a sum *)

Lemma atan2_range (y x : R) : - PI < atan2 y x <= PI.
Proof.
  pose proof PI_RGT_0 as Hpi. pose proof (atan_bound (y / x)) as Hb.
  unfold atan2.
  destruct (Rlt_dec 0 x) as [Hx | Hx]; [lra |].
  destruct (Rlt_dec x 0) as [Hx' | Hx'].
  - destruct (Rle_dec 0 y) as [Hy | Hy].
    + assert (Hq : y / x <= 0).
      { unfold Rdiv. assert (/ x < 0) by now apply Rinv_lt_0_compat. nra. }
      destruct Hq as [Hq | Hq].
      * pose proof (atan_increasing _ _ Hq) as Hlt. rewrite atan_0 in Hlt. lra.
      * rewrite Hq, atan_0. lra.
    + assert (Hq : 0 < y / x).
      { unfold Rdiv. assert (/ x < 0) by now apply Rinv_lt_0_compat. nra. }
      pose proof (atan_increasing _ _ Hq) as Hlt. rewrite atan_0 in Hlt. lra.
  - destruct (Rlt_dec 0 y); [lra |]. destruct (Rlt_dec y 0); lra.
Qed.

(** X7. A sum is always in normal form: [Vector.add] returns a vector with
    magnitude at least 0 and direction in (-pi, pi], whatever the operands
    (negative magnitudes and directions beyond a turn included). *)
Theorem Vector_add_normal_form (a b : Vector.t) :
  exists ab,
    Vector.add a b = Some ab
    /\ 0 <= Vector.magnitude ab
    /\ - PI < Vector.direction ab <= PI.
Proof.
  rewrite Vector_add_eq. eexists. split; [reflexivity |].
  cbn [Vector.magnitude Vector.direction].
  split; [apply sqrt_pos | apply atan2_range].
Qed.

Lemma hypot_le (x y t : R) : 0 <= t -> x * x + y * y <= t * t -> hypot x y <= t.
Proof.
  intros Ht Hle. unfold hypot. rewrite <- (sqrt_square t Ht).
  now apply sqrt_le_1_alt.
Qed.

Lemma hypot_polar (m d : R) :
  hypot (m * cos d) (m * sin d) = Rabs m.
Proof.
  unfold hypot.
  replace (m * cos d * (m * cos d) + m * sin d * (m * sin d))
    with (m² * ((sin d)² + (cos d)²)) by (unfold Rsqr; ring).
  rewrite sin2_cos2, Rmult_1_r. apply sqrt_Rsqr_abs.
Qed.

(** X8. Triangle inequality: with magnitudes at least 0, the magnitude of
    a sum is at most the sum of the magnitudes and at least their
    difference. *)
Theorem Vector_add_triangle (a b : Vector.t)
    (Ha : 0 <= Vector.magnitude a) (Hb : 0 <= Vector.magnitude b) :
  exists ab,
    Vector.add a b = Some ab
    /\ Vector.magnitude ab <= Vector.magnitude a + Vector.magnitude b
    /\ Rabs (Vector.magnitude a - Vector.magnitude b) <= Vector.magnitude ab.
Proof.
  rewrite Vector_add_eq. eexists. split; [reflexivity |].
  cbn [Vector.magnitude]. unfold cartesian_sum. cbn [fst snd].
  unfold Vector.horizontal_component, Vector.vertical_component.
  destruct a as [da ma], b as [db mb]. cbn [Vector.direction Vector.magnitude] in *.
  pose proof (sin2_cos2 da) as Ea. pose proof (sin2_cos2 db) as Eb.
  unfold Rsqr in Ea, Eb.
  assert (Hdot : -1 <= cos da * cos db + sin da * sin db <= 1).
  { split.
    - pose proof (Rle_0_sqr (cos da + cos db)). pose proof (Rle_0_sqr (sin da + sin db)).
      unfold Rsqr in *. nra.
    - pose proof (Rle_0_sqr (cos da - cos db)). pose proof (Rle_0_sqr (sin da - sin db)).
      unfold Rsqr in *. nra. }
  assert (Hsq : (ma * cos da + mb * cos db) * (ma * cos da + mb * cos db)
                + (ma * sin da + mb * sin db) * (ma * sin da + mb * sin db)
                = ma * ma + mb * mb
                  + 2 * (ma * mb) * (cos da * cos db + sin da * sin db)) by nra.
  assert (Hmm : 0 <= ma * mb) by nra.
  split.
  - apply hypot_le; [lra |]. rewrite Hsq. nra.
  - unfold hypot. rewrite Hsq. rewrite <- sqrt_Rsqr_abs.
    apply sqrt_le_1_alt. unfold Rsqr. nra.
Qed.

Lemma Vector_add_triangle_witness :
  exists ab,
    Vector.add (Vector.mk 0 3) (Vector.mk (PI / 2) 4) = Some ab
    /\ Vector.magnitude ab <= 3 + 4
    /\ Rabs (3 - 4) <= Vector.magnitude ab.
Proof.
  assert (Ha : 0 <= Vector.magnitude (Vector.mk 0 3)) by (cbn; lra).
  assert (Hb : 0 <= Vector.magnitude (Vector.mk (PI / 2) 4)) by (cbn; lra).
  exact (Vector_add_triangle (Vector.mk 0 3) (Vector.mk (PI / 2) 4) Ha Hb).
Defined.

(** ** Vector: adding nothing *)

Lemma quotient_is_tan (m d e : R) :
  0 < m -> cos d <> 0 -> sin e = - sin d -> cos e = - cos d ->
  m * sin d / (m * cos d) = tan e.
Proof.
  intros Hm Hc Hs Hc'. unfold tan. rewrite Hs, Hc'. field. split; lra.
Qed.

Lemma cos_sign_in_turn (d : R) :
  - PI < d <= PI ->
  (- (PI / 2) < d < PI / 2 /\ 0 < cos d)
  \/ (PI / 2 < d /\ cos d < 0 /\ 0 <= sin d)
  \/ (d < - (PI / 2) /\ cos d < 0 /\ sin d < 0)
  \/ (d = PI / 2 /\ cos d = 0 /\ sin d = 1)
  \/ (d = - (PI / 2) /\ cos d = 0 /\ sin d = -1).
Proof.
  intros [Hlo Hhi]. pose proof PI_RGT_0 as Hpi.
  destruct (Rtotal_order d (PI / 2)) as [Hlt | [Heq | Hgt]].
  - destruct (Rtotal_order d (- (PI / 2))) as [Hlt' | [Heq' | Hgt']].
    + right. right. left. split; [assumption |]. split.
      * rewrite <- cos_neg. apply cos_lt_0; lra.
      * apply sin_lt_0_var; lra.
    + right. right. right. right. subst d.
      rewrite cos_neg, sin_neg, cos_PI2, sin_PI2. repeat split; lra.
    + left. split; [lra |]. apply cos_gt_0; lra.
  - right. right. right. left. subst d. rewrite cos_PI2, sin_PI2. now repeat split.
  - right. left. split; [assumption |]. split.
    + apply cos_lt_0; lra.
    + apply sin_ge_0; lra.
Qed.

(** Cartesian and back: the angle of the point at distance m > 0 in
    direction d is d again when d is in (-pi, pi]. *)
Lemma atan2_polar (m d : R) :
  0 < m -> - PI < d <= PI -> atan2 (m * sin d) (m * cos d) = d.
Proof.
  intros Hm Hd. pose proof PI_RGT_0 as Hpi. unfold atan2.
  destruct (cos_sign_in_turn d Hd)
    as [[Hr Hc] | [[Hr [Hc Hs]] | [[Hr [Hc Hs]] | [[-> [Hc Hs]] | [-> [Hc Hs]]]]]].
  - destruct (Rlt_dec 0 (m * cos d)); [| nra].
    replace (m * sin d / (m * cos d)) with (tan d) by (unfold tan; field; split; lra).
    now apply atan_tan.
  - destruct (Rlt_dec 0 (m * cos d)); [nra |].
    destruct (Rlt_dec (m * cos d) 0); [| nra].
    destruct (Rle_dec 0 (m * sin d)); [| nra].
    rewrite (quotient_is_tan m d (d - PI)); try lra.
    + rewrite atan_tan; lra.
    + pose proof (neg_sin (d - PI)) as H. replace (d - PI + PI) with d in H by ring. lra.
    + pose proof (neg_cos (d - PI)) as H. replace (d - PI + PI) with d in H by ring. lra.
  - destruct (Rlt_dec 0 (m * cos d)); [nra |].
    destruct (Rlt_dec (m * cos d) 0); [| nra].
    destruct (Rle_dec 0 (m * sin d)); [nra |].
    rewrite (quotient_is_tan m d (d + PI)); try lra.
    + rewrite atan_tan; lra.
    + apply neg_sin.
    + apply neg_cos.
  - rewrite Hc, Hs.
    destruct (Rlt_dec 0 (m * 0)); [lra |]. destruct (Rlt_dec (m * 0) 0); [lra |].
    destruct (Rlt_dec 0 (m * 1)); lra.
  - rewrite Hc, Hs.
    destruct (Rlt_dec 0 (m * 0)); [lra |]. destruct (Rlt_dec (m * 0) 0); [lra |].
    destruct (Rlt_dec 0 (m * -1)); [lra |]. destruct (Rlt_dec (m * -1) 0); lra.
Qed.

Lemma cartesian_sum_zero (v z : Vector.t) :
  Vector.magnitude z = 0 ->
  cartesian_sum v z
  = (Vector.magnitude v * cos (Vector.direction v),
     Vector.magnitude v * sin (Vector.direction v)).
Proof.
  intros Hz. unfold cartesian_sum, Vector.horizontal_component, Vector.vertical_component.
  rewrite Hz. f_equal; ring.
Qed.

(** X9. Polar round trip: adding a vector of magnitude 0 (such as gravity
    over dt = 0), on either side, gives back a vector in normal form
    (magnitude > 0, direction in (-pi, pi]) exactly as it was. *)
Theorem Vector_add_zero (v z : Vector.t)
    (Hz : Vector.magnitude z = 0)
    (Hm : 0 < Vector.magnitude v)
    (Hd : - PI < Vector.direction v <= PI) :
  Vector.add v z = Some v /\ Vector.add z v = Some v.
Proof.
  assert (H : Vector.add v z = Some v).
  { rewrite Vector_add_eq, (cartesian_sum_zero v z Hz). cbn [fst snd].
    rewrite atan2_polar, hypot_polar, Rabs_pos_eq by lra.
    now destruct v. }
  split; [exact H | now rewrite Vector_add_comm].
Qed.

Lemma Vector_add_zero_witness :
  Vector.add (Vector.mk 0 2) (gravity 0) = Some (Vector.mk 0 2)
  /\ Vector.add (gravity 0) (Vector.mk 0 2) = Some (Vector.mk 0 2).
Proof.
  assert (Hz : Vector.magnitude (gravity 0) = 0) by (cbn; unfold G; lra).
  assert (Hm : 0 < Vector.magnitude (Vector.mk 0 2)) by (cbn; lra).
  assert (Hd : - PI < Vector.direction (Vector.mk 0 2) <= PI).
  { cbn. pose proof PI_RGT_0. lra. }
  exact (Vector_add_zero (Vector.mk 0 2) (gravity 0) Hz Hm Hd).
Defined.

(** ** Ship: equations of motion *)

Lemma thrust_components (o dv : R) :
  Vector.horizontal_component (Vector.mk (o + HALF_PI) dv) = - (dv * sin o)
  /\ Vector.vertical_component (Vector.mk (o + HALF_PI) dv) = dv * cos o.
Proof.
  unfold Vector.horizontal_component, Vector.vertical_component, HALF_PI.
  cbn [Vector.direction Vector.magnitude].
  replace (PI / 2.0) with (PI / 2) by lra.
  rewrite cos_plus, sin_plus, cos_PI2, sin_PI2. split; ring.
Qed.

Lemma update_velocity_components (dt now : R) (s : Ship.t) (g : Spark.globals) :
  exists s' g',
    Ship.update dt now s g = Some (s', g')
    /\ Ship.position s' = moved dt s
    /\ (~ Ship.throttle s > 0 ->
          Vector.horizontal_component (Ship.velocity s')
          = Vector.horizontal_component (Ship.velocity s)
          /\ Vector.vertical_component (Ship.velocity s')
             = Vector.vertical_component (Ship.velocity s) - G * dt)
    /\ (Ship.throttle s > 0 ->
          Vector.horizontal_component (Ship.velocity s')
          = Vector.horizontal_component (Ship.velocity s)
            - fuel_burned dt s * EXHAUST_VELOCITY / (EMPTY_MASS + Ship.fuel s')
              * sin (Ship.orientation s)
          /\ Vector.vertical_component (Ship.velocity s')
             = Vector.vertical_component (Ship.velocity s) - G * dt
               + fuel_burned dt s * EXHAUST_VELOCITY / (EMPTY_MASS + Ship.fuel s')
                 * cos (Ship.orientation s)).
Proof.
  destruct (gravity_components dt) as [Hgx Hgy].
  destruct (Rgt_dec (Ship.throttle s) 0) as [Hth | Hth].
  - destruct (update_thrusting dt now s g Hth) as [v1 [v2 [Hv1 [Hv2 Hupd]]]].
    destruct (Vector_add_components _ _ _ Hv1) as [Hx1 Hy1].
    destruct (Vector_add_components _ _ _ Hv2) as [Hx2 Hy2].
    destruct (thrust_components (Ship.orientation s)
                (fuel_burned dt s * EXHAUST_VELOCITY
                 / (EMPTY_MASS + (Ship.fuel s - fuel_burned dt s)))) as [Htx Hty].
    rewrite Hupd. eexists. eexists. split; [reflexivity |].
    match goal with |- context [Ship.turn dt ?s2] =>
      destruct (turn_frame dt s2) as [Hp [Hv [_ [_ Hf]]]]; rewrite Hp, Hv, Hf
    end.
    cbn [Ship.position Ship.velocity Ship.fuel].
    split; [reflexivity |]. split; [contradiction |]. intros _.
    rewrite Hx2, Hy2, Hx1, Hy1, Htx, Hty, Hgx, Hgy. split; ring.
  - destruct (update_idle dt now s g Hth) as [v1 [Hv1 Hupd]].
    destruct (Vector_add_components _ _ _ Hv1) as [Hx1 Hy1].
    rewrite Hupd. eexists. eexists. split; [reflexivity |].
    match goal with |- context [Ship.turn dt ?s2] =>
      destruct (turn_frame dt s2) as [Hp [Hv [_ [_ Hf]]]]; rewrite Hp, Hv
    end.
    cbn [Ship.position Ship.velocity Ship.fuel].
    split; [reflexivity |]. split; [| contradiction]. intros _.
    rewrite Hx1, Hy1, Hgx, Hgy. split; ring.
Qed.


(** X10. One update in Cartesian terms, for every state and dt: the ship
    moves by its old velocity times dt; with the throttle closed the
    velocity keeps its horizontal component and loses G * dt vertically;
    with it open the thrust dv = fuel_burned * EXHAUST_VELOCITY /
    (EMPTY_MASS + fuel after) is added along the ship's axis, that is
    (- dv * sin orientation, dv * cos orientation); so an upright ship
    (orientation 0) never changes its horizontal speed. *)
Theorem Ship_update_motion (dt now : R) (s : Ship.t) (g : Spark.globals) :
  exists s' g',
    Ship.update dt now s g = Some (s', g')
    /\ Ship.position s' = moved dt s
    /\ (~ Ship.throttle s > 0 ->
          Vector.horizontal_component (Ship.velocity s')
          = Vector.horizontal_component (Ship.velocity s)
          /\ Vector.vertical_component (Ship.velocity s')
             = Vector.vertical_component (Ship.velocity s) - G * dt)
    /\ (Ship.throttle s > 0 ->
          Vector.horizontal_component (Ship.velocity s')
          = Vector.horizontal_component (Ship.velocity s)
            - fuel_burned dt s * EXHAUST_VELOCITY / (EMPTY_MASS + Ship.fuel s')
              * sin (Ship.orientation s)
          /\ Vector.vertical_component (Ship.velocity s')
             = Vector.vertical_component (Ship.velocity s) - G * dt
               + fuel_burned dt s * EXHAUST_VELOCITY / (EMPTY_MASS + Ship.fuel s')
                 * cos (Ship.orientation s))
    /\ (Ship.orientation s = 0 ->
          Vector.horizontal_component (Ship.velocity s')
          = Vector.horizontal_component (Ship.velocity s)).
Proof.
  destruct (update_velocity_components dt now s g)
    as [s' [g' [Hupd [Hpos [Hidle Hopen]]]]].
  exists s', g'. repeat (split; [assumption |]).
  intros Ho. destruct (Rgt_dec (Ship.throttle s) 0) as [Hth | Hth].
  - destruct (Hopen Hth) as [Hx _]. rewrite Hx, Ho, sin_0. ring.
  - now destruct (Hidle Hth).
Qed.

Lemma Ship_update_motion_witness :
  exists s' g',
    Ship.update 1 0 Ship.init two_sparks = Some (s', g')
    /\ Vector.horizontal_component (Ship.velocity s')
       = Vector.horizontal_component (Ship.velocity Ship.init)
    /\ Vector.vertical_component (Ship.velocity s')
       = Vector.vertical_component (Ship.velocity Ship.init) - G * 1.
Proof.
  destruct (Ship_update_motion 1 0 Ship.init two_sparks)
    as [s' [g' [Hupd [_ [Hidle _]]]]].
  exists s', g'. split; [exact Hupd |].
  apply Hidle. cbn [Ship.throttle Ship.init]. lra.
Defined.

(** ** Ship: the throttle stays a fraction *)

Lemma throttle_step (c : Main.call) (st : Main.state) :
  0 <= Ship.throttle (Main.ship st) <= 1 ->
  exists st',
    Main.step c st = Some st'
    /\ 0 <= Ship.throttle (Main.ship st') <= 1.
Proof.
  intros Hth. destruct c as [dt now | dt now | | | r]; cbn [Main.step].
  - destruct (update_fuel_throttle dt now (Main.ship st) (Main.globals st))
      as [s' [g' [-> [_ [_ [Hon Hoff]]]]]].
    eexists. split; [reflexivity |]. cbn [Main.ship].
    destruct (Rgt_dec (Ship.throttle (Main.ship st)) 0) as [Hopen | Hshut].
    + destruct (Hon Hopen) as [_ [-> _]]. destruct (Rgt_dec _ _); lra.
    + destruct (Hoff Hshut) as [_ [-> _]]. lra.
  - destruct (update_all_tick dt now (Main.globals st)) as [l' [-> _]].
    eexists. split; [reflexivity | exact Hth].
  - eexists. split; [reflexivity |]. cbn [Main.ship].
    destruct (Req_dec_T (Ship.fuel (Main.ship st)) 0) as [Hf | Hf].
    + now rewrite increase_throttle_empty.
    + rewrite increase_throttle_throttle by assumption.
      unfold Rmin. destruct (Rle_dec 1 _); lra.
  - eexists. split; [reflexivity |]. cbn [Main.ship].
    rewrite decrease_throttle_throttle.
    unfold Rmax. destruct (Rle_dec 0 _); lra.
  - eexists. split; [reflexivity | exact Hth].
Qed.

(** X11. The throttle stays in [0, 1]: from a state where it is, every
    trace of calls, whatever the time steps, returns and leaves it
    there. *)
Theorem throttle_stays_a_fraction (cs : list Main.call) :
  forall st, 0 <= Ship.throttle (Main.ship st) <= 1 ->
  exists st',
    Main.run cs st = Some st'
    /\ 0 <= Ship.throttle (Main.ship st') <= 1.
Proof.
  induction cs as [| c cs IH]; intros st Hth.
  - exists st. now split.
  - destruct (throttle_step c st Hth) as [st1 [Hst1 Hth1]].
    destruct (IH st1 Hth1) as [st' [Hrun Hth']].
    exists st'. cbn [Main.run]. rewrite Hst1. now split.
Qed.

Lemma throttle_stays_a_fraction_witness :
  exists st',
    Main.run [Main.IncreaseThrottle; Main.ShipUpdate 1 0; Main.DecreaseThrottle]
             (Main.start (fun _ => 0)) = Some st'
    /\ 0 <= Ship.throttle (Main.ship st') <= 1.
Proof.
  apply throttle_stays_a_fraction. cbn. lra.
Defined.

(** ** Ship: an empty tank, a negative time step *)

Lemma zero_thrust_components (o : R) :
  Vector.horizontal_component (Vector.mk o 0) = 0
  /\ Vector.vertical_component (Vector.mk o 0) = 0.
Proof.
  unfold Vector.horizontal_component, Vector.vertical_component.
  cbn [Vector.direction Vector.magnitude]. split; ring.
Qed.

(** X12. With an empty tank an update (dt >= 0) gives no thrust and no
    sparks: the fuel stays 0, the spark list and the generator are
    untouched, the velocity changes by gravity alone; and if dt > 0 an open
    throttle is shut. *)
Theorem empty_tank_update (dt now : R) (s : Ship.t) (g : Spark.globals)
    (Hfuel : Ship.fuel s = 0) (Hdt : 0 <= dt) :
  exists s',
    Ship.update dt now s g = Some (s', g)
    /\ Ship.fuel s' = 0
    /\ Vector.horizontal_component (Ship.velocity s')
       = Vector.horizontal_component (Ship.velocity s)
    /\ Vector.vertical_component (Ship.velocity s')
       = Vector.vertical_component (Ship.velocity s) - G * dt
    /\ (0 < dt -> 0 <= Ship.throttle s -> Ship.throttle s' = 0).
Proof.
  destruct (update_velocity_components dt now s g)
    as [s' [g' [Hupd [_ [Hidle Hopen]]]]].
  destruct (update_fuel_throttle dt now s g) as [s1 [g1 [Hupd1 [_ [_ [Hon Hoff]]]]]].
  rewrite Hupd in Hupd1. injection Hupd1 as <- <-.
  destruct (Rgt_dec (Ship.throttle s) 0) as [Hth | Hth].
  - destruct (Hon Hth) as [Hf [Ht Hg]].
    assert (Hfb : fuel_burned dt s = 0).
    { unfold fuel_burned, THROTTLE_MAX. rewrite Hfuel.
      destruct (Rgt_dec (Ship.throttle s * 600 * dt) 0); [reflexivity | nra]. }
    rewrite Hfb in Hf, Hg.
    replace (0 * SPARKS_PER_KG) with (IZR 0) in Hg by ring.
    rewrite py_int_IZR in Hg. cbn [Z.to_nat Ship.spawn] in Hg. subst g'.
    exists s'. split; [assumption |]. split; [lra |].
    destruct (Hopen Hth) as [Hx Hy]. rewrite Hfb in Hx, Hy.
    split; [rewrite Hx; unfold Rdiv; ring |].
    split; [rewrite Hy; unfold Rdiv; ring |].
    intros Hpos _. rewrite Ht, Hfuel. unfold THROTTLE_MAX.
    destruct (Rgt_dec (Ship.throttle s * 600 * dt) 0); [reflexivity | nra].
  - destruct (Hoff Hth) as [Hf [Ht Hg]]. subst g'.
    exists s'. split; [assumption |]. split; [lra |].
    destruct (Hidle Hth) as [Hx Hy]. split; [assumption |]. split; [assumption |].
    intros _ Hnn. lra.
Qed.

Lemma empty_tank_update_witness :
  exists s',
    Ship.update 1 0 (Ship.set_fuel ship_full_throttle 0) two_sparks
    = Some (s', two_sparks)
    /\ Ship.fuel s' = 0 /\ Ship.throttle s' = 0.
Proof.
  assert (Hfuel : Ship.fuel (Ship.set_fuel ship_full_throttle 0) = 0) by reflexivity.
  assert (Hdt : 0 <= 1) by lra.
  destruct (empty_tank_update 1 0 (Ship.set_fuel ship_full_throttle 0) two_sparks
              Hfuel Hdt) as [s' [Hupd [Hf [_ [_ Hshut]]]]].
  exists s'. split; [exact Hupd |]. split; [exact Hf |].
  apply Hshut; [lra |]. cbn. lra.
Defined.

(** X13. Nothing guards the time step: with the throttle open, fuel >= 0
    and dt < 0, an update returns with more fuel than before
    (fuel - throttle * 600 * dt), the throttle as it was, and no new
    spark. *)
Theorem negative_step_makes_fuel (dt now : R) (s : Ship.t) (g : Spark.globals)
    (Hth : Ship.throttle s > 0) (Hfuel : 0 <= Ship.fuel s) (Hdt : dt < 0) :
  exists s',
    Ship.update dt now s g = Some (s', g)
    /\ Ship.fuel s' = Ship.fuel s - Ship.throttle s * THROTTLE_MAX * dt
    /\ Ship.fuel s < Ship.fuel s'
    /\ Ship.throttle s' = Ship.throttle s.
Proof.
  destruct (update_fuel_throttle dt now s g) as [s' [g' [Hupd [_ [_ [Hon _]]]]]].
  destruct (Hon Hth) as [Hf [Ht Hg]].
  assert (Hneg : Ship.throttle s * THROTTLE_MAX * dt < 0) by (unfold THROTTLE_MAX; nra).
  assert (Hfb : fuel_burned dt s = Ship.throttle s * THROTTLE_MAX * dt).
  { unfold fuel_burned. destruct (Rgt_dec _ (Ship.fuel s)); [lra | reflexivity]. }
  assert (Hnone : Z.to_nat (py_int (fuel_burned dt s * SPARKS_PER_KG)) = O).
  { rewrite Hfb. 
    assert (Hle : (py_int (Ship.throttle s * THROTTLE_MAX * dt * SPARKS_PER_KG)
                   <= py_int (IZR 0))%Z)
      by (apply py_int_le; unfold SPARKS_PER_KG; lra).
    rewrite py_int_IZR in Hle. lia. }
  rewrite Hnone in Hg. cbn [Ship.spawn] in Hg. subst g'.
  exists s'. split; [assumption |]. rewrite Hf, Ht, Hfb.
  split; [reflexivity |]. split; [lra |].
  destruct (Rgt_dec _ (Ship.fuel s)); [lra | reflexivity].
Qed.

Lemma negative_step_makes_fuel_witness :
  exists s',
    Ship.update (- 1) 0 ship_full_throttle two_sparks = Some (s', two_sparks)
    /\ Ship.fuel s'
       = Ship.fuel ship_full_throttle
         - Ship.throttle ship_full_throttle * THROTTLE_MAX * (- 1)
    /\ Ship.fuel ship_full_throttle < Ship.fuel s'
    /\ Ship.throttle s' = Ship.throttle ship_full_throttle.
Proof.
  assert (Hth : Ship.throttle ship_full_throttle > 0) by (cbn; lra).
  assert (Hfuel : 0 <= Ship.fuel ship_full_throttle) by (cbn; lra).
  assert (Hdt : - 1 < 0) by lra.
  exact (negative_step_makes_fuel (- 1) 0 ship_full_throttle two_sparks Hth Hfuel Hdt).
Defined.

Lemma dead_stick_step (c : Main.call) (st : Main.state) :
  Ship.fuel (Main.ship st) = 0 -> Ship.throttle (Main.ship st) = 0 ->
  exists st',
    Main.step c st = Some st'
    /\ Ship.fuel (Main.ship st') = 0 /\ Ship.throttle (Main.ship st') = 0.
Proof.
  intros Hf Ht. destruct c as [dt now | dt now | | | r]; cbn [Main.step].
  - destruct (update_fuel_throttle dt now (Main.ship st) (Main.globals st))
      as [s' [g' [-> [_ [_ [_ Hoff]]]]]].
    destruct Hoff as [Hf' [Ht' _]]; [lra |].
    eexists. split; [reflexivity |]. cbn [Main.ship]. split; congruence.
  - destruct (update_all_tick dt now (Main.globals st)) as [l' [-> _]].
    eexists. split; [reflexivity |]. now split.
  - eexists. split; [reflexivity |]. cbn [Main.ship].
    rewrite increase_throttle_empty by assumption. now split.
  - eexists. split; [reflexivity |]. cbn [Main.ship].
    rewrite decrease_throttle_fuel, decrease_throttle_throttle, Ht.
    split; [assumption |]. unfold Rmax. destruct (Rle_dec 0 (0 - 0.1)); lra.
  - eexists. split; [reflexivity |]. now split.
Qed.

(** X14. Out of fuel with the throttle shut is final: every trace of
    calls, whatever its time steps, mouse-wheel events and rotations,
    returns with the fuel still 0 and the throttle still 0. *)
Theorem dead_stick_is_final (cs : list Main.call) :
  forall st,
    Ship.fuel (Main.ship st) = 0 -> Ship.throttle (Main.ship st) = 0 ->
    exists st',
      Main.run cs st = Some st'
      /\ Ship.fuel (Main.ship st') = 0 /\ Ship.throttle (Main.ship st') = 0.
Proof.
  induction cs as [| c cs IH]; intros st Hf Ht.
  - exists st. now repeat split.
  - destruct (dead_stick_step c st Hf Ht) as [st1 [Hst1 [Hf1 Ht1]]].
    destruct (IH st1 Hf1 Ht1) as [st' [Hrun Hst']].
    exists st'. cbn [Main.run]. rewrite Hst1. now split.
Qed.

Lemma dead_stick_is_final_witness :
  exists st',
    Main.run [Main.IncreaseThrottle; Main.ShipUpdate (- 1) 0]
      (Main.mkState (Ship.set_fuel Ship.init 0) two_sparks) = Some st'
    /\ Ship.fuel (Main.ship st') = 0 /\ Ship.throttle (Main.ship st') = 0.
Proof.
  apply dead_stick_is_final; reflexivity.
Defined.

(** ** Ship: rotation *)

Lemma turn_eq (dt : R) (s : Ship.t) :
  Ship.rotation s <> 0%Z ->
  Ship.turn dt s =
  if Req_dec_T (Ship.orientation s + IZR (Ship.rotation s) * TURN_RATE * dt) 0
  then Ship.mk (Ship.position s) (Ship.velocity s)
         (Ship.orientation s + IZR (Ship.rotation s) * TURN_RATE * dt)
         (Ship.throttle s) (Ship.rotation s) (Ship.fuel s)
         Ship.base_image (Ship.sprite_image s)
  else Ship.mk (Ship.position s) (Ship.velocity s)
         (Ship.orientation s + IZR (Ship.rotation s) * TURN_RATE * dt)
         (Ship.throttle s) (Ship.rotation s) (Ship.fuel s)
         (Ship.rotate Ship.base_image
            ((Ship.orientation s + IZR (Ship.rotation s) * TURN_RATE * dt)
             * DEGREES_PER_RADIAN))
         (Ship.rotate Ship.base_image
            ((Ship.orientation s + IZR (Ship.rotation s) * TURN_RATE * dt)
             * DEGREES_PER_RADIAN)).
Proof.
  intros Hr. unfold Ship.turn.
  destruct (Z.eq_dec (Ship.rotation s) 0); [contradiction | reflexivity].
Qed.

Lemma turn_spec (dt : R) (s : Ship.t) :
  Ship.rotation (Ship.turn dt s) = Ship.rotation s
  /\ Ship.orientation (Ship.turn dt s)
     = Ship.orientation s + IZR (Ship.rotation s) * TURN_RATE * dt
  /\ (Ship.rotation s = 0%Z ->
        Ship.image_ (Ship.turn dt s) = Ship.image_ s
        /\ Ship.sprite_image (Ship.turn dt s) = Ship.sprite_image s)
  /\ (Ship.rotation s <> 0%Z ->
        Ship.image_ (Ship.turn dt s) = image_of (Ship.orientation (Ship.turn dt s))
        /\ (Ship.orientation (Ship.turn dt s) <> 0 ->
              Ship.sprite_image (Ship.turn dt s)
              = image_of (Ship.orientation (Ship.turn dt s)))
        /\ (Ship.orientation (Ship.turn dt s) = 0 ->
              Ship.sprite_image (Ship.turn dt s) = Ship.sprite_image s)).
Proof.
  destruct (Z.eq_dec (Ship.rotation s) 0) as [Hr | Hr].
  - rewrite turn_still by assumption. rewrite Hr.
    repeat split; try contradiction. cbn. ring.
  - rewrite turn_eq by assumption. unfold image_of.
    destruct (Req_dec_T (Ship.orientation s + IZR (Ship.rotation s) * TURN_RATE * dt) 0)
      as [Ho | Ho];
      cbn [Ship.rotation Ship.orientation Ship.image_ Ship.sprite_image];
      destruct (Req_dec_T (Ship.orientation s + IZR (Ship.rotation s) * TURN_RATE * dt) 0);
      try contradiction; repeat split; try contradiction; reflexivity.
Qed.

Lemma turn_congr (dt : R) (a b : Ship.t) :
  Ship.orientation a = Ship.orientation b -> Ship.rotation a = Ship.rotation b ->
  Ship.image_ a = Ship.image_ b -> Ship.sprite_image a = Ship.sprite_image b ->
  Ship.rotation (Ship.turn dt a) = Ship.rotation (Ship.turn dt b)
  /\ Ship.orientation (Ship.turn dt a) = Ship.orientation (Ship.turn dt b)
  /\ Ship.image_ (Ship.turn dt a) = Ship.image_ (Ship.turn dt b)
  /\ Ship.sprite_image (Ship.turn dt a) = Ship.sprite_image (Ship.turn dt b).
Proof.
  destruct a as [pa va oa ta ra fa ia sa], b as [pb vb ob tb rb fb ib sb].
  cbn [Ship.orientation Ship.rotation Ship.image_ Ship.sprite_image].
  intros -> -> -> ->. unfold Ship.turn. cbn [Ship.rotation].
  destruct (Z.eq_dec rb 0); [now repeat split |].
  cbv zeta. unfold Ship.set_orientation. cbn [Ship.orientation Ship.rotation].
  destruct (Req_dec_T (ob + IZR rb * TURN_RATE * dt) 0); now repeat split.
Qed.

(** [update] leaves rotation, orientation and images as [turn] does on the
    ship it was given. *)
Lemma update_turns (dt now : R) (s : Ship.t) (g : Spark.globals) :
  exists s' g',
    Ship.update dt now s g = Some (s', g')
    /\ Ship.rotation s' = Ship.rotation (Ship.turn dt s)
    /\ Ship.orientation s' = Ship.orientation (Ship.turn dt s)
    /\ Ship.image_ s' = Ship.image_ (Ship.turn dt s)
    /\ Ship.sprite_image s' = Ship.sprite_image (Ship.turn dt s).
Proof.
  destruct (Rgt_dec (Ship.throttle s) 0) as [Hth | Hth].
  - destruct (update_thrusting dt now s g Hth) as [v1 [v2 [_ [_ Hupd]]]].
    rewrite Hupd. eexists. eexists. split; [reflexivity |].
    apply turn_congr; reflexivity.
  - destruct (update_idle dt now s g Hth) as [v1 [_ Hupd]].
    rewrite Hupd. eexists. eexists. split; [reflexivity |].
    apply turn_congr; reflexivity.
Qed.

(** X15. Turning costs nothing: whatever rotation the ship is given, the
    update returns the same position, velocity, throttle, fuel, sparks and
    generator; only the orientation differs, by rotation * TURN_RATE * dt
    (it accumulates without bound or wrap-around). *)
Theorem rotation_is_free (dt now : R) (s : Ship.t) (g : Spark.globals) (r : Z) :
  exists s1 s2 g',
    Ship.update dt now s g = Some (s1, g')
    /\ Ship.update dt now (Ship.set_rotation r s) g = Some (s2, g')
    /\ Ship.position s2 = Ship.position s1
    /\ Ship.velocity s2 = Ship.velocity s1
    /\ Ship.throttle s2 = Ship.throttle s1
    /\ Ship.fuel s2 = Ship.fuel s1
    /\ Ship.orientation s2 = Ship.orientation s + IZR r * TURN_RATE * dt
    /\ Ship.orientation s1
       = Ship.orientation s + IZR (Ship.rotation s) * TURN_RATE * dt.
Proof.
  destruct (update_turns dt now s g) as [t1 [h1 [Ht1 [_ [Ho1 _]]]]].
  destruct (update_turns dt now (Ship.set_rotation r s) g) as [t2 [h2 [Ht2 [_ [Ho2 _]]]]].
  destruct (turn_spec dt s) as [_ [Hs1 _]].
  destruct (turn_spec dt (Ship.set_rotation r s)) as [_ [Hs2 _]].
  rewrite Hs1 in Ho1. rewrite Hs2 in Ho2.
  cbn [Ship.set_rotation Ship.set_rotation_field Ship.orientation Ship.rotation] in Ho2.
  destruct (Rgt_dec (Ship.throttle s) 0) as [Hth | Hth].
  - destruct (update_thrusting dt now s g Hth) as [v1 [v2 [Hv1 [Hv2 Hupd]]]].
    destruct (update_thrusting dt now (Ship.set_rotation r s) g Hth)
      as [w1 [w2 [Hw1 [Hw2 Hupd']]]].
    assert (Hw1' : Vector.add (Ship.velocity s) (gravity dt) = Some w1) by exact Hw1.
    rewrite Hv1 in Hw1'. injection Hw1' as <-.
    assert (Hw2' : Vector.add v1
                     (Vector.mk (Ship.orientation s + HALF_PI)
                        (fuel_burned dt s * EXHAUST_VELOCITY
                         / (EMPTY_MASS + (Ship.fuel s - fuel_burned dt s))))
                   = Some w2) by exact Hw2.
    rewrite Hv2 in Hw2'. injection Hw2' as <-.
    rewrite Hupd in Ht1. injection Ht1 as <- <-.
    rewrite Hupd' in Ht2. injection Ht2 as <- <-.
    eexists. eexists. eexists. split; [exact Hupd |]. split; [exact Hupd' |].
    split; [| split; [| split; [| split; [| split; assumption]]]].
    all: match goal with |- ?f (Ship.turn ?d ?a) = ?f (Ship.turn ?d ?b) =>
           destruct (turn_frame d a) as [Ha1 [Ha2 [Ha3 [_ Ha5]]]];
           destruct (turn_frame d b) as [Hb1 [Hb2 [Hb3 [_ Hb5]]]]
         end.
    + now rewrite Ha1, Hb1.
    + now rewrite Ha2, Hb2.
    + now rewrite Ha3, Hb3.
    + now rewrite Ha5, Hb5.
  - destruct (update_idle dt now s g Hth) as [v1 [Hv1 Hupd]].
    destruct (update_idle dt now (Ship.set_rotation r s) g Hth) as [w1 [Hw1 Hupd']].
    assert (Hw1' : Vector.add (Ship.velocity s) (gravity dt) = Some w1) by exact Hw1.
    rewrite Hv1 in Hw1'. injection Hw1' as <-.
    rewrite Hupd in Ht1. injection Ht1 as <- <-.
    rewrite Hupd' in Ht2. injection Ht2 as <- <-.
    eexists. eexists. eexists. split; [exact Hupd |]. split; [exact Hupd' |].
    split; [| split; [| split; [| split; [| split; assumption]]]].
    all: match goal with |- ?f (Ship.turn ?d ?a) = ?f (Ship.turn ?d ?b) =>
           destruct (turn_frame d a) as [Ha1 [Ha2 [Ha3 [_ Ha5]]]];
           destruct (turn_frame d b) as [Hb1 [Hb2 [Hb3 [_ Hb5]]]]
         end.
    + now rewrite Ha1, Hb1.
    + now rewrite Ha2, Hb2.
    + now rewrite Ha3, Hb3.
    + now rewrite Ha5, Hb5.
Qed.

Lemma rotation_is_free_witness :
  exists s1 s2 g',
    Ship.update 1 0 ship_full_throttle two_sparks = Some (s1, g')
    /\ Ship.update 1 0 (Ship.set_rotation 1 ship_full_throttle) two_sparks
       = Some (s2, g')
    /\ Ship.fuel s2 = Ship.fuel s1.
Proof.
  destruct (rotation_is_free 1 0 ship_full_throttle two_sparks 1)
    as [s1 [s2 [g' [H1 [H2 [_ [_ [_ [Hf _]]]]]]]]].
  exists s1, s2, g'. now repeat split.
Defined.

(** ** Ship: the image that is drawn *)

Lemma throttle_commands_frame (s : Ship.t) :
  (Ship.orientation (Ship.increase_throttle s) = Ship.orientation s
   /\ Ship.image_ (Ship.increase_throttle s) = Ship.image_ s
   /\ Ship.sprite_image (Ship.increase_throttle s) = Ship.sprite_image s)
  /\ (Ship.orientation (Ship.decrease_throttle s) = Ship.orientation s
      /\ Ship.image_ (Ship.decrease_throttle s) = Ship.image_ s
      /\ Ship.sprite_image (Ship.decrease_throttle s) = Ship.sprite_image s).
Proof.
  unfold Ship.increase_throttle, Ship.decrease_throttle. cbv zeta. split.
  - destruct (Req_dec_T (Ship.fuel s) 0); [now repeat split |].
    destruct (Rgt_dec _ 1.0); now repeat split.
  - destruct (Rlt_dec _ 0.0); now repeat split.
Qed.

Lemma image_step (c : Main.call) (st : Main.state) :
  Ship.image_ (Main.ship st) = image_of (Ship.orientation (Main.ship st)) ->
  (Ship.orientation (Main.ship st) <> 0 ->
     Ship.sprite_image (Main.ship st) = Ship.image_ (Main.ship st)) ->
  exists st',
    Main.step c st = Some st'
    /\ Ship.image_ (Main.ship st') = image_of (Ship.orientation (Main.ship st'))
    /\ (Ship.orientation (Main.ship st') <> 0 ->
          Ship.sprite_image (Main.ship st') = Ship.image_ (Main.ship st')).
Proof.
  intros Himg Hspr. destruct c as [dt now | dt now | | | r]; cbn [Main.step].
  - destruct (update_turns dt now (Main.ship st) (Main.globals st))
      as [s' [g' [-> [_ [Ho [Hi Hs]]]]]].
    eexists. split; [reflexivity |]. cbn [Main.ship]. rewrite Ho, Hi, Hs.
    destruct (turn_spec dt (Main.ship st)) as [_ [Hto [Hstill Hturn]]].
    destruct (Z.eq_dec (Ship.rotation (Main.ship st)) 0) as [Hr | Hr].
    + destruct (Hstill Hr) as [-> ->]. rewrite Hto, Hr.
      replace (Ship.orientation (Main.ship st) + 0 * TURN_RATE * dt)
        with (Ship.orientation (Main.ship st)) by ring.
      now split.
    + destruct (Hturn Hr) as [Hi' [Hs' _]]. split; [assumption |].
      intros Hne. rewrite Hi'. now apply Hs'.
  - destruct (update_all_tick dt now (Main.globals st)) as [l' [-> _]].
    eexists. split; [reflexivity |]. now split.
  - eexists. split; [reflexivity |]. cbn [Main.ship].
    destruct (throttle_commands_frame (Main.ship st)) as [[-> [-> ->]] _]. now split.
  - eexists. split; [reflexivity |]. cbn [Main.ship].
    destruct (throttle_commands_frame (Main.ship st)) as [_ [-> [-> ->]]]. now split.
  - eexists. split; [reflexivity |]. now split.
Qed.

(** X16. From the state the loop starts in, after any trace of calls: the
    ship's image is the one of its orientation (the base image at 0, the
    base image rotated by orientation * DEGREES_PER_RADIAN otherwise), and
    whenever the orientation is not 0 that is the image [draw] puts on the
    screen, at (x, MAX_Y - y). *)
Theorem drawn_image_follows_orientation (cs : list Main.call) (seed : Random.state) :
  exists st',
    Main.run cs (Main.start seed) = Some st'
    /\ Ship.image_ (Main.ship st') = image_of (Ship.orientation (Main.ship st'))
    /\ (Ship.orientation (Main.ship st') <> 0 ->
          Ship.draw (Main.ship st')
          = (Ship.rotate Ship.base_image
               (Ship.orientation (Main.ship st') * DEGREES_PER_RADIAN),
             (fst (Ship.position (Main.ship st')),
              MAX_Y - snd (Ship.position (Main.ship st'))))).
Proof.
  assert (Hrun : forall cs st,
             Ship.image_ (Main.ship st) = image_of (Ship.orientation (Main.ship st)) ->
             (Ship.orientation (Main.ship st) <> 0 ->
                Ship.sprite_image (Main.ship st) = Ship.image_ (Main.ship st)) ->
             exists st',
               Main.run cs st = Some st'
               /\ Ship.image_ (Main.ship st') = image_of (Ship.orientation (Main.ship st'))
               /\ (Ship.orientation (Main.ship st') <> 0 ->
                     Ship.sprite_image (Main.ship st') = Ship.image_ (Main.ship st'))).
  { clear cs. induction cs as [| c cs IH]; intros st Hi Hs.
    - exists st. now repeat split.
    - destruct (image_step c st Hi Hs) as [st1 [Hst1 [Hi1 Hs1]]].
      destruct (IH st1 Hi1 Hs1) as [st' [Hrun Hst']].
      exists st'. cbn [Main.run]. rewrite Hst1. now split. }
  destruct (Hrun cs (Main.start seed)) as [st' [Hst' [Hi Hs]]].
  - cbn [Main.start Main.ship Ship.init Ship.image_ Ship.orientation]. unfold image_of.
    destruct (Req_dec_T 0 0); [reflexivity | contradiction].
  - intros Hne. exfalso. now apply Hne.
  - exists st'. split; [assumption |]. split; [assumption |].
    intros Hne. unfold Ship.draw. cbv zeta. rewrite (Hs Hne), Hi. unfold image_of.
    destruct (Req_dec_T (Ship.orientation (Main.ship st')) 0); [contradiction | reflexivity].
Qed.

Lemma drawn_image_follows_orientation_witness :
  exists st',
    Main.run [Main.SetRotation 1; Main.ShipUpdate 1 0] (Main.start (fun _ => 0))
    = Some st'
    /\ Ship.image_ (Main.ship st') = image_of (Ship.orientation (Main.ship st')).
Proof.
  destruct (drawn_image_follows_orientation
              [Main.SetRotation 1; Main.ShipUpdate 1 0] (fun _ => 0))
    as [st' [Hrun [Hi _]]].
  exists st'. now split.
Defined.

(** X17. The sprite can be left behind: turn a ship that is upright
    (orientation 0) one way for dt and back for the same dt, with
    rotation r <> 0 and dt <> 0.  The orientation is 0 again and the ship's
    image is the base image, but [draw] still shows the base image rotated
    by r * TURN_RATE * dt * DEGREES_PER_RADIAN: line 183 resets [self.image]
    and not [self.sprite.image]. *)
Theorem upright_but_drawn_tilted
    (dt now1 now2 : R) (r : Z) (st : Main.state)
    (Ho : Ship.orientation (Main.ship st) = 0) (Hr : r <> 0%Z) (Hdt : dt <> 0) :
  exists st',
    Main.run [Main.SetRotation r; Main.ShipUpdate dt now1;
              Main.SetRotation (- r); Main.ShipUpdate dt now2] st = Some st'
    /\ Ship.orientation (Main.ship st') = 0
    /\ Ship.image_ (Main.ship st') = Ship.base_image
    /\ fst (Ship.draw (Main.ship st'))
       = Ship.rotate Ship.base_image (IZR r * TURN_RATE * dt * DEGREES_PER_RADIAN)
    /\ fst (Ship.draw (Main.ship st')) <> Ship.image_ (Main.ship st').
Proof.
  cbn [Main.run Main.step bind Main.ship Main.globals].
  destruct (update_turns dt now1 (Ship.set_rotation r (Main.ship st)) (Main.globals st))
    as [s1 [g1 [-> [Hr1 [Ho1 [_ Hs1]]]]]].
  cbn [bind Main.ship Main.globals].
  destruct (update_turns dt now2 (Ship.set_rotation (- r) s1) g1)
    as [s2 [g2 [-> [_ [Ho2 [Hi2 Hs2]]]]]].
  cbn [bind]. eexists. split; [reflexivity |]. cbn [Main.ship].
  destruct (turn_spec dt (Ship.set_rotation r (Main.ship st))) as [_ [Hto1 [_ Hturn1]]].
  destruct (turn_spec dt (Ship.set_rotation (- r) s1)) as [_ [Hto2 [_ Hturn2]]].
  cbn [Ship.set_rotation Ship.set_rotation_field Ship.rotation Ship.orientation
       Ship.sprite_image] in Hto1, Hto2, Hturn1, Hturn2.
  rewrite Ho in Hto1.
  assert (Hne1 : Ship.orientation s1 <> 0).
  { rewrite Ho1, Hto1. unfold TURN_RATE.
    assert (IZR r <> 0) by (now apply not_0_IZR).
    intros Hz. assert (IZR r * dt = 0) by lra.
    apply Rmult_integral in H0. tauto. }
  assert (Hz2 : Ship.orientation s2 = 0).
  { rewrite Ho2, Hto2, Ho1, Hto1, opp_IZR. ring. }
  destruct (Hturn1 Hr) as [_ [Hspr1 _]]. rewrite <- Ho1 in Hspr1.
  specialize (Hspr1 Hne1). rewrite <- Hs1 in Hspr1.
  destruct (Hturn2 ltac:(lia)) as [Himg2 [_ Hspr2]].
  rewrite <- Ho2 in Himg2, Hspr2. specialize (Hspr2 Hz2).
  rewrite <- Hi2 in Himg2. rewrite <- Hs2 in Hspr2.
  assert (Hbase : Ship.image_ s2 = Ship.base_image).
  { rewrite Himg2, Hz2. unfold image_of.
    destruct (Req_dec_T 0 0); [reflexivity | contradiction]. }
  assert (Htilt : Ship.sprite_image s2
                  = Ship.rotate Ship.base_image
                      (IZR r * TURN_RATE * dt * DEGREES_PER_RADIAN)).
  { rewrite Hspr2, Hspr1. unfold image_of.
    destruct (Req_dec_T (Ship.orientation s1) 0); [contradiction |].
    rewrite Ho1, Hto1. f_equal. ring. }
  split; [assumption |]. split; [assumption |].
  unfold Ship.draw. cbv zeta. cbn [fst]. split; [assumption |].
  rewrite Htilt, Hbase. discriminate.
Qed.

Lemma upright_but_drawn_tilted_witness :
  exists st',
    Main.run [Main.SetRotation 1; Main.ShipUpdate 1 0;
              Main.SetRotation (- 1); Main.ShipUpdate 1 1]
      (Main.start (fun _ => 0)) = Some st'
    /\ Ship.orientation (Main.ship st') = 0
    /\ Ship.image_ (Main.ship st') = Ship.base_image
    /\ fst (Ship.draw (Main.ship st'))
       = Ship.rotate Ship.base_image (IZR 1 * TURN_RATE * 1 * DEGREES_PER_RADIAN)
    /\ fst (Ship.draw (Main.ship st')) <> Ship.image_ (Main.ship st').
Proof.
  assert (Ho : Ship.orientation (Main.ship (Main.start (fun _ => 0))) = 0) by reflexivity.
  assert (Hr : 1%Z <> 0%Z) by discriminate.
  assert (Hdt : 1 <> 0) by lra.
  exact (upright_but_drawn_tilted 1 0 1 1 (Main.start (fun _ => 0)) Ho Hr Hdt).
Defined.

(** ** Exhaust: the sparks an update creates *)

Lemma uniform_range (a b : R) (st : Random.state) :
  a <= b -> unit_draws st ->
  a <= fst (Random.uniform a b st) <= b
  /\ snd (Random.uniform a b st) = (fun n => st (S n)).
Proof.
  intros Hab Hst. unfold Random.uniform, Random.random. cbn [fst snd].
  pose proof (Hst O). split; [nra | reflexivity].
Qed.





(** ** The loop of main: input and drawing *)

Lemma run_app (cs1 cs2 : list Main.call) :
  forall st, Main.run (cs1 ++ cs2) st = (st1 <- Main.run cs1 st ;; Main.run cs2 st1).
Proof.
  induction cs1 as [| c cs1 IH]; intros st; cbn [app Main.run].
  - reflexivity.
  - destruct (Main.step c st) as [st1 |]; cbn [bind]; [apply IH | reflexivity].
Qed.

Lemma input_run (cs : list Main.call) :
  forall st, Forall input_call cs ->
  exists st',
    Main.run cs st = Some st' /\ Main.globals st' = Main.globals st.
Proof.
  induction cs as [| c cs IH]; intros st Hcs.
  - exists st. now split.
  - inversion Hcs as [| ? ? Hc Hrest]; subst.
    destruct c as [dt now | dt now | | | r]; cbn [input_call] in Hc; try contradiction;
      cbn [Main.run Main.step bind];
      match goal with |- context [Main.run cs ?st1] =>
        destruct (IH st1 Hrest) as [st' [Hrun Hg]]
      end;
      exists st'; (split; [exact Hrun | exact Hg]).
Qed.

Lemma frame_input_calls (f : Main.frame) (r : Z) :
  Forall input_call (flat_map Main.button_calls (Main.buttons f) ++ [Main.SetRotation r]).
Proof.
  apply Forall_app. split; [| now repeat constructor].
  apply Forall_forall. intros c Hc. apply in_flat_map in Hc as [b [_ Hb]].
  destruct b; cbn in Hb; intuition (subst; exact I).
Qed.

(** X19. What a frame leaves in [ship.rotation]: from any state the calls
    of one frame return, and the rotation is +1 with z held, -1 with x
    held, 0 with neither or with both: it is set anew in each frame and
    never outside {-1, 0, 1}. *)
Theorem frame_sets_rotation (f : Main.frame) (st : Main.state) :
  exists st',
    Main.run (Main.frame_calls f) st = Some st'
    /\ Ship.rotation (Main.ship st')
       = ((if Main.key_z f then 1 else 0) - (if Main.key_x f then 1 else 0))%Z
    /\ (-1 <= Ship.rotation (Main.ship st') <= 1)%Z.
Proof.
  assert (Hlast : forall cs r st0,
             (exists st1, Main.run cs st0 = Some st1) ->
             exists st', Main.run (cs ++ [Main.SetRotation r]) st0 = Some st'
                         /\ Ship.rotation (Main.ship st') = r).
  { intros cs r st0 [st1 Hst1]. rewrite run_app, Hst1. cbn [bind Main.run Main.step].
    eexists. split; reflexivity. }
  pose (r := ((if Main.key_z f then 1 else 0) - (if Main.key_x f then 1 else 0))%Z).
  destruct (Hlast (Main.ShipUpdate (Main.delta_t f) (Main.now_ship f)
                   :: Main.SparkUpdateAll (Main.delta_t f) (Main.now_sparks f)
                   :: flat_map Main.button_calls (Main.buttons f)) r st)
    as [st' [Hrun Hr]].
  { cbn [Main.run Main.step].
    destruct (update_total (Main.delta_t f) (Main.now_ship f) (Main.ship st)
                (Main.globals st)) as [s' [g' ->]]. cbn [bind Main.globals Main.ship].
    destruct (update_all_tick (Main.delta_t f) (Main.now_sparks f) g') as [l' [-> _]].
    cbn [bind].
    assert (Hin : Forall input_call (flat_map Main.button_calls (Main.buttons f))).
    { apply Forall_forall. intros c Hc. apply in_flat_map in Hc as [b [_ Hb]].
      destruct b; cbn in Hb; intuition (subst; exact I). }
    destruct (input_run _ (Main.mkState s' (Spark.mkGlobals l' (Spark.rng g'))) Hin)
      as [st1 [Hst1 _]].
    eauto. }
  exists st'. split; [| split].
  - rewrite <- Hrun. unfold Main.frame_calls, r.
    destruct (Main.key_z f), (Main.key_x f); reflexivity.
  - exact Hr.
  - rewrite Hr. unfold r. destruct (Main.key_z f), (Main.key_x f); lia.
Qed.

Lemma draw_all_in_range (l : list Spark.t) :
  Forall (fun sp => 0 <= Spark.age sp <= 1) l ->
  exists circles,
    Spark.draw_all l = Some circles
    /\ Forall2 (fun sp c => Spark.draw sp = Some c) l circles
    /\ Forall (fun c => (1 <= Spark.radius c <= 8)%Z) circles.
Proof.
  induction 1 as [| sp l Hsp _ [circles [Hall [Hdraw Hrad]]]].
  - exists []. repeat split; constructor.
  - destruct (draw_channels sp Hsp) as [Hc [Hr _]].
    eexists. cbn [Spark.draw_all]. rewrite Hc, Hall. cbn [bind].
    split; [reflexivity |]. split; constructor; assumption.
Qed.

Lemma update_all_ages (dt now : R) (g : Spark.globals) :
  started_by now (Spark.sparks g) ->
  exists l',
    Spark.update_all dt now g = Some (Spark.mkGlobals l' (Spark.rng g))
    /\ Forall (fun sp => 0 <= Spark.age sp <= 1) l'
    /\ started_by now l'.
Proof.
  intros Hb. destruct (update_all_tick dt now g) as [l' [Hupd [Hcut Hsurv]]].
  exists l'. split; [assumption |].
  destruct (advance_keeps_order _ _ _ _ Hcut) as [_ Hb'].
  specialize (Hb' now (started_by_firstn _ _ _ Hb)).
  split; [| assumption].
  unfold started_by in Hb'. rewrite Forall_forall in *. intros sp Hin.
  destruct (Hsurv sp Hin) as [Hage Hle]. specialize (Hb' sp Hin).
  split; [| assumption]. rewrite Hage. unfold age_at, SPARK_LIFETIME. lra.
Qed.

(** X20. Cull, then draw: when no spark of the list started after [now],
    [update_all] leaves only sparks with age between 0 and 1, and
    [draw_all] then returns one circle per spark, in list order, each with
    a radius from 1 to 8 (no colour out of range reaches
    [pygame.Color]). *)
Theorem cull_then_draw (dt now : R) (g : Spark.globals)
    (Hpast : started_by now (Spark.sparks g)) :
  exists g' circles,
    Spark.update_all dt now g = Some g'
    /\ Forall (fun sp => 0 <= Spark.age sp <= 1) (Spark.sparks g')
    /\ Spark.draw_all (Spark.sparks g') = Some circles
    /\ Forall2 (fun sp c => Spark.draw sp = Some c) (Spark.sparks g') circles
    /\ Forall (fun c => (1 <= Spark.radius c <= 8)%Z) circles.
Proof.
  destruct (update_all_ages dt now g Hpast) as [l' [Hupd [Hages _]]].
  destruct (draw_all_in_range l' Hages) as [circles [Hall [Hdraw Hrad]]].
  exists (Spark.mkGlobals l' (Spark.rng g)), circles. now repeat split.
Qed.

Lemma cull_then_draw_witness :
  exists g' circles,
    Spark.update_all 1 (3 / 2) two_sparks = Some g'
    /\ Forall (fun sp => 0 <= Spark.age sp <= 1) (Spark.sparks g')
    /\ Spark.draw_all (Spark.sparks g') = Some circles
    /\ Forall2 (fun sp c => Spark.draw sp = Some c) (Spark.sparks g') circles
    /\ Forall (fun c => (1 <= Spark.radius c <= 8)%Z) circles.
Proof.
  assert (Hpast : started_by (3 / 2) (Spark.sparks two_sparks))
    by (repeat constructor; cbn [Spark.start_time]; lra).
  exact (cull_then_draw 1 (3 / 2) two_sparks Hpast).
Defined.

Lemma frame_sparks (f : Main.frame) (st : Main.state) (t : R) :
  Spark.newest_first (Spark.sparks (Main.globals st)) ->
  started_by t (Spark.sparks (Main.globals st)) ->
  t <= Main.now_ship f -> Main.now_ship f <= Main.now_sparks f ->
  exists st',
    Main.run (Main.frame_calls f) st = Some st'
    /\ Spark.newest_first (Spark.sparks (Main.globals st'))
    /\ started_by (Main.now_ship f) (Spark.sparks (Main.globals st'))
    /\ Forall (fun sp => 0 <= Spark.age sp <= 1) (Spark.sparks (Main.globals st')).
Proof.
  intros Hs Hb Ht Hnow. unfold Main.frame_calls. cbv zeta.
  cbn [Main.run Main.step].
  destruct (update_fuel_throttle (Main.delta_t f) (Main.now_ship f) (Main.ship st)
              (Main.globals st)) as [s' [g' [-> [_ [_ [Hon Hoff]]]]]].
  cbn [bind Main.globals Main.ship].
  assert (Hg' : Spark.newest_first (Spark.sparks g')
                /\ started_by (Main.now_ship f) (Spark.sparks g')).
  { destruct (Rgt_dec (Ship.throttle (Main.ship st)) 0) as [Hth | Hth].
    - destruct (Hon Hth) as [_ [_ ->]]. now apply (spawn_order _ _ _ _ _ t).
    - destruct (Hoff Hth) as [_ [_ ->]]. split; [assumption |].
      now apply (started_by_le t). }
  destruct Hg' as [Hs' Hb'].
  destruct (update_all_tick (Main.delta_t f) (Main.now_sparks f) g')
    as [l' [Hupd [Hcut _]]].
  destruct (update_all_ages (Main.delta_t f) (Main.now_sparks f) g')
    as [l2 [Hupd2 [Hages _]]]; [now apply (started_by_le (Main.now_ship f)) |].
  rewrite Hupd in Hupd2. injection Hupd2 as <-.
  rewrite Hupd. cbn [bind].
  destruct (advance_keeps_order _ _ _ _ Hcut) as [Hs2 Hb2].
  specialize (Hs2 (newest_first_firstn _ _ Hs')).
  specialize (Hb2 _ (started_by_firstn _ _ _ Hb')).
  match goal with |- context [Main.run ?cs ?st1] =>
    destruct (input_run cs st1) as [st' [Hrun Hg]]
  end.
  { apply frame_input_calls. }
  exists st'. split; [exact Hrun |]. rewrite Hg. cbn [Main.globals Spark.sparks].
  now repeat split.
Qed.

Lemma frames_sparks (fs : list Main.frame) :
  forall (st : Main.state) (t : R),
    Spark.newest_first (Spark.sparks (Main.globals st)) ->
    started_by t (Spark.sparks (Main.globals st)) ->
    Forall (fun sp => 0 <= Spark.age sp <= 1) (Spark.sparks (Main.globals st)) ->
    steady_clock t fs ->
    exists st',
      Main.run (flat_map Main.frame_calls fs) st = Some st'
      /\ Forall (fun sp => 0 <= Spark.age sp <= 1) (Spark.sparks (Main.globals st')).
Proof.
  induction fs as [| f fs IH]; intros st t Hs Hb Ha Hclock.
  - exists st. now split.
  - destruct Hclock as [Ht [Hnow Hclock]].
    destruct (frame_sparks f st t Hs Hb Ht Hnow) as [st1 [Hst1 [Hs1 [Hb1 Ha1]]]].
    destruct (IH st1 (Main.now_ship f) Hs1 Hb1 Ha1 Hclock) as [st' [Hrun Ha']].
    exists st'. cbn [flat_map]. rewrite run_app, Hst1. now split.
Qed.

(** X21. Round the loop with a clock that does not go back (the time given
    to [Ship.update] never decreases from frame to frame, and
    [Spark.update_all] gets a time no earlier in the same frame): after any
    number of frames every spark has an age between 0 and 1, and the
    drawing of the frame succeeds, with the ship's sprite and one circle
    of radius 1 to 8 per spark. *)
Theorem main_loop_renders (fs : list Main.frame) (seed : Random.state) (t : R)
    (Hclock : steady_clock t fs) :
  exists st blit circles,
    Main.main_loop fs seed = Some st
    /\ Forall (fun sp => 0 <= Spark.age sp <= 1) (Spark.sparks (Main.globals st))
    /\ Main.render st = Some (blit, circles)
    /\ blit = Ship.draw (Main.ship st)
    /\ length circles = length (Spark.sparks (Main.globals st))
    /\ Forall (fun c => (1 <= Spark.radius c <= 8)%Z) circles.
Proof.
  destruct (frames_sparks fs (Main.start seed) t) as [st [Hrun Hages]];
    try constructor; try assumption.
  destruct (draw_all_in_range _ Hages) as [circles [Hall [Hdraw Hrad]]].
  exists st, (Ship.draw (Main.ship st)), circles.
  split; [exact Hrun |]. split; [assumption |].
  unfold Main.render. cbv zeta. rewrite Hall. cbn [bind].
  split; [reflexivity |]. split; [reflexivity |]. split; [| assumption].
  symmetry. now apply (Forall2_length_eq _ _ _ Hdraw).
Qed.

Lemma main_loop_renders_witness :
  exists st blit circles,
    Main.main_loop [Main.mkFrame 1 1 1 [Main.MouseWheelUp] true false;
                    Main.mkFrame 1 2 2 [] false false] (fun _ => 0) = Some st
    /\ Forall (fun sp => 0 <= Spark.age sp <= 1) (Spark.sparks (Main.globals st))
    /\ Main.render st = Some (blit, circles)
    /\ blit = Ship.draw (Main.ship st)
    /\ length circles = length (Spark.sparks (Main.globals st))
    /\ Forall (fun c => (1 <= Spark.radius c <= 8)%Z) circles.
Proof.
  apply (main_loop_renders _ _ 0).
  cbn [steady_clock Main.now_ship Main.now_sparks]. lra.
Defined.

(** ** Vector: a vector and its negation; Ship: lift *)

(** X22. A vector and the same direction with the magnitude negated
    cancel, in either order, to the zero vector with direction 0: both
    Cartesian sums are exactly 0 and [atan2(0, 0)] is 0. *)
Theorem Vector_add_opposite (d m : R) :
  Vector.add (Vector.mk d m) (Vector.mk d (- m)) = Some (Vector.mk 0 0)
  /\ Vector.add (Vector.mk d (- m)) (Vector.mk d m) = Some (Vector.mk 0 0).
Proof.
  assert (Hzero : Vector.mk (atan2 0 0) (hypot 0 0) = Vector.mk 0 0).
  { unfold atan2, hypot. destruct (Rlt_dec 0 0); [lra |].
    replace (0 * 0 + 0 * 0) with 0 by ring. now rewrite sqrt_0. }
  split; rewrite Vector_add_eq; unfold cartesian_sum, Vector.horizontal_component,
    Vector.vertical_component; cbn [Vector.direction Vector.magnitude fst snd].
  - replace (m * cos d + - m * cos d) with 0 by ring.
    replace (m * sin d + - m * sin d) with 0 by ring.
    now rewrite Hzero.
  - replace (- m * cos d + m * cos d) with 0 by ring.
    replace (- m * sin d + m * sin d) with 0 by ring.
    now rewrite Hzero.
Qed.

(** X23. Lift: an upright ship (orientation 0) with the throttle open,
    dt > 0 and enough fuel for the step gains vertical speed in an update
    exactly when throttle * THROTTLE_MAX * EXHAUST_VELOCITY exceeds G times
    the mass left after the burn; its horizontal speed is unchanged. *)
Theorem upright_lift (dt now : R) (s : Ship.t) (g : Spark.globals)
    (Ho : Ship.orientation s = 0) (Hth : Ship.throttle s > 0) (Hdt : 0 < dt)
    (Henough : Ship.throttle s * THROTTLE_MAX * dt <= Ship.fuel s) :
  exists s' g',
    Ship.update dt now s g = Some (s', g')
    /\ Ship.mass s' = EMPTY_MASS + Ship.fuel s - Ship.throttle s * THROTTLE_MAX * dt
    /\ Vector.horizontal_component (Ship.velocity s')
       = Vector.horizontal_component (Ship.velocity s)
    /\ (Vector.vertical_component (Ship.velocity s)
        < Vector.vertical_component (Ship.velocity s')
        <-> G * Ship.mass s' < Ship.throttle s * THROTTLE_MAX * EXHAUST_VELOCITY).
Proof.
  destruct (update_velocity_components dt now s g)
    as [s' [g' [Hupd [_ [_ Hopen]]]]].
  destruct (update_fuel_throttle dt now s g) as [s1 [g1 [Hupd1 [_ [_ [Hon _]]]]]].
  rewrite Hupd in Hupd1. injection Hupd1 as <- <-.
  destruct (Hon Hth) as [Hf _]. destruct (Hopen Hth) as [Hx Hy].
  assert (Hfb : fuel_burned dt s = Ship.throttle s * THROTTLE_MAX * dt).
  { unfold fuel_burned. destruct (Rgt_dec _ (Ship.fuel s)); [lra | reflexivity]. }
  rewrite Ho, sin_0 in Hx. rewrite Ho, cos_0 in Hy. rewrite Hfb in Hf, Hx, Hy.
  exists s', g'. split; [assumption |].
  assert (Hmass : Ship.mass s' = EMPTY_MASS + Ship.fuel s
                                 - Ship.throttle s * THROTTLE_MAX * dt)
    by (unfold Ship.mass; lra).
  split; [assumption |]. split; [rewrite Hx; ring |].
  assert (Hpos : 0 < EMPTY_MASS + Ship.fuel s') by (unfold EMPTY_MASS; lra).
  assert (Hm : Ship.mass s' = EMPTY_MASS + Ship.fuel s') by (unfold Ship.mass; ring).
  rewrite Hy, Hm.
  set (M := EMPTY_MASS + Ship.fuel s') in *.
  set (T := Ship.throttle s * THROTTLE_MAX) in *.
  assert (Hq : T * dt * EXHAUST_VELOCITY / M * 1 - G * dt
               = dt * (T * EXHAUST_VELOCITY - G * M) / M) by (field; lra).
  split; intros H.
  - assert (H1 : 0 < dt * (T * EXHAUST_VELOCITY - G * M) / M) by lra.
    assert (H2 : 0 < dt * (T * EXHAUST_VELOCITY - G * M)).
    { replace (dt * (T * EXHAUST_VELOCITY - G * M))
        with (dt * (T * EXHAUST_VELOCITY - G * M) / M * M) by (field; lra).
      now apply Rmult_lt_0_compat. }
    nra.
  - assert (H1 : 0 < dt * (T * EXHAUST_VELOCITY - G * M) / M).
    { apply Rdiv_lt_0_compat; [nra | assumption]. }
    lra.
Qed.

Lemma upright_lift_witness :
  exists s' g',
    Ship.update 1 0 ship_full_throttle two_sparks = Some (s', g')
    /\ Ship.mass s'
       = EMPTY_MASS + Ship.fuel ship_full_throttle
         - Ship.throttle ship_full_throttle * THROTTLE_MAX * 1.
Proof.
  assert (Ho : Ship.orientation ship_full_throttle = 0) by reflexivity.
  assert (Hth : Ship.throttle ship_full_throttle > 0) by (cbn; lra).
  assert (Hdt : 0 < 1) by lra.
  assert (Henough : Ship.throttle ship_full_throttle * THROTTLE_MAX * 1
                    <= Ship.fuel ship_full_throttle)
    by (cbn; unfold THROTTLE_MAX; lra).
  destruct (upright_lift 1 0 ship_full_throttle two_sparks Ho Hth Hdt Henough)
    as [s' [g' [Hupd [Hmass _]]]].
  exists s', g'. now split.
Defined.
